(** * anki2studysmarter: the separator restoration heuristic

    A shallow embedding of [heuristic_insert_linebreaks] and
    [restore_separators] from [anki2studysmarter.py], and the properties
    of the two functions.

    A Python [str] is a sequence of Unicode code points and is modelled as
    a list of code points.  [heuristic_insert_linebreaks] is modelled loop
    by loop, with its cursor, its [result] list and its subscripts, a
    subscript out of range raising [IndexError]; [scan] is the same scan by
    recursion on the text, and the two are proved equal.  The library
    calls of [restore_separators] ([re.sub], [re.split], [str.strip],
    [str.join]) are modelled by what they compute for the two patterns the
    code uses. *)

From Stdlib Require Import String Ascii List NArith Arith Bool Lia Permutation.
Import ListNotations.

Local Open Scope list_scope.
Local Open Scope nat_scope.

(** ** Characters and strings *)

Definition char : Type := N.
Definition str : Type := list char.

Definition of_string (s : string) : str :=
  map N_of_ascii (list_ascii_of_string s).

Definition nl : char := 10%N.
Definition space : char := 32%N.
Definition quote : char := 34%N.

Definition upper_ascii (c : char) : bool :=
  (65 <=? c)%N && (c <=? 90)%N.

(** [\t \n \v \f \r], the four separators U+001C..U+001F, and the space. *)
Definition space_ascii (c : char) : bool :=
  ((9 <=? c)%N && (c <=? 13)%N) || ((28 <=? c)%N && (c <=? 32)%N).

(** The two character classes the code consults are tables of the Unicode
    database: [c.isupper()] for a one-character string, and the whitespace
    class, which is the same for [str.isspace], [str.strip] and [\s] of
    [re] on a [str] pattern.  They are taken as they are, with three facts
    that hold in every version of the tables: below U+0080 the uppercase
    letters are [A]..[Z], below U+0080 the whitespace characters are
    U+0009..U+000D and U+001C..U+0020, and no uppercase letter is
    whitespace. *)
Class CharTables : Type := {
  isupper : char -> bool;
  isspace : char -> bool;
  isupper_ascii : forall c, (c < 128)%N -> isupper c = upper_ascii c;
  isspace_ascii : forall c, (c < 128)%N -> isspace c = space_ascii c;
  upper_not_space : forall c, isupper c = true -> isspace c = false
}.

(** The tables cut down to the ASCII range. *)
#[export, refine] Instance ascii_tables : CharTables := {
  isupper c := (c <? 128)%N && upper_ascii c;
  isspace c := (c <? 128)%N && space_ascii c
}.
Proof.
  - intros c H. apply N.ltb_lt in H. now rewrite H.
  - intros c H. apply N.ltb_lt in H. now rewrite H.
  - intros c. unfold upper_ascii, space_ascii.
    rewrite !andb_true_iff, !N.leb_le. intros [_ [H1 H2]].
    apply andb_false_iff. right.
    apply orb_false_iff. split; apply andb_false_iff.
    + right. apply N.leb_gt. lia.
    + right. apply N.leb_gt. lia.
Defined.

(** ** Outcomes of the imperative code

    A run of the Python code either returns, raises [IndexError] at a
    subscript out of range, or is still looping when the fuel given to the
    model is used up. *)

Inductive outcome (A : Type) : Type :=
| Done (a : A)
| IndexError
| OutOfFuel.

Arguments Done {A} a.
Arguments IndexError {A}.
Arguments OutOfFuel {A}.

Definition bind {A B : Type} (m : outcome A) (k : A -> outcome B) : outcome B :=
  match m with
  | Done a => k a
  | IndexError => IndexError
  | OutOfFuel => OutOfFuel
  end.

Notation "x <- m ;; k" := (bind m (fun x => k))
  (at level 61, m at next level, right associativity).

(** [text[i]] for [0 <= i]. *)
Definition getitem (text : str) (i : nat) : outcome char :=
  match nth_error text i with
  | Some c => Done c
  | None => IndexError
  end.

(** The set [forbidden]: the double quote, then [( [ { / - , . : ;] and the
    space. *)
Definition forbidden : str := quote :: of_string "([{/-,.:; ".

Definition in_forbidden (c : char) : bool := existsb (N.eqb c) forbidden.

(** The last character of [s], if there is one: [s[len(s) - 1]]. *)
Definition last_char (s : str) : option char := nth_error s (length s - 1).

(** The test [i == 0 or text[i-1] in forbidden] at a cursor whose
    predecessor is [prev]. *)
Definition start_or_forbidden (prev : option char) : bool :=
  match prev with
  | None => true
  | Some p => in_forbidden p
  end.

Section Segmenter.

Context {T : CharTables}.

(** *** The loops of [heuristic_insert_linebreaks] *)

(** [while j < n and text[j].isupper(): result.append(text[j]); j += 1] *)
Fixpoint copy_upper (fuel : nat) (text : str) (j : nat) (result : str)
  : outcome (nat * str) :=
  match fuel with
  | O => OutOfFuel
  | S fuel' =>
      if j <? length text then
        c <- getitem text j ;;
        if isupper c then copy_upper fuel' text (S j) (result ++ [c])
        else Done (j, result)
      else Done (j, result)
  end.

(** [while j < n and text[j].isupper(): group_len += 1; j += 1] *)
Fixpoint count_upper (fuel : nat) (text : str) (j : nat) (group_len : nat)
  : outcome (nat * nat) :=
  match fuel with
  | O => OutOfFuel
  | S fuel' =>
      if j <? length text then
        c <- getitem text j ;;
        if isupper c then count_upper fuel' text (S j) (S group_len)
        else Done (j, group_len)
      else Done (j, group_len)
  end.

(** [while i < j: result.append(text[i]); i += 1] *)
Fixpoint copy_range (fuel : nat) (text : str) (i j : nat) (result : str)
  : outcome (nat * str) :=
  match fuel with
  | O => OutOfFuel
  | S fuel' =>
      if i <? j then
        c <- getitem text i ;;
        copy_range fuel' text (S i) j (result ++ [c])
      else Done (i, result)
  end.

(** The outer [while i < n] loop, from the cursor [i] and the characters
    appended to [result] so far. *)
Fixpoint scan_loop (fuel : nat) (text : str) (i : nat) (result : str)
  : outcome str :=
  match fuel with
  | O => OutOfFuel
  | S fuel' =>
      if i <? length text then
        c <- getitem text i ;;
        if isupper c then
          start_or_forbidden <-
            (if i =? 0 then Done true
             else p <- getitem text (i - 1) ;; Done (in_forbidden p)) ;;
          if start_or_forbidden : bool then
            r <- copy_upper fuel' text i result ;;
            scan_loop fuel' text (fst r) (snd r)
          else
            r <- count_upper fuel' text i 0 ;;
            let j := fst r in
            let group_len := snd r in
            if group_len <=? 2 then
              r' <- copy_range fuel' text i j (result ++ [nl]) ;;
              scan_loop fuel' text (fst r') (snd r')
            else
              r' <- copy_range fuel' text i j result ;;
              scan_loop fuel' text (fst r') (snd r')
        else scan_loop fuel' text (S i) (result ++ [c])
      else Done result
  end.

(** Every turn of the outer loop moves the cursor forward, and an inner
    loop runs at most to the end of the text, so [length text + 2] turns
    are enough ([scan_loop_run] below). *)
Definition heuristic_insert_linebreaks (text : str) : outcome str :=
  scan_loop (length text + 2) text 0 [].

(** *** The same scan, by recursion on the text

    [in_run] says that the previous character belongs to an uppercase
    block that is being copied; [prev] is [text[i-1]], or [None] at the
    start. *)

Fixpoint upper_run (text : str) : str :=
  match text with
  | [] => []
  | c :: rest => if isupper c then c :: upper_run rest else []
  end.

Fixpoint after_run (text : str) : str :=
  match text with
  | [] => []
  | c :: rest => if isupper c then after_run rest else text
  end.

Definition starts_upper (text : str) : bool :=
  match text with
  | [] => false
  | c :: _ => isupper c
  end.

Definition break_before (prev : option char) (group_len : nat) : str :=
  match prev with
  | None => []
  | Some p =>
      if in_forbidden p then []
      else if group_len <=? 2 then [nl] else []
  end.

Fixpoint scan (in_run : bool) (prev : option char) (text : str) : str :=
  match text with
  | [] => []
  | c :: rest =>
      if isupper c then
        (if in_run then [] else break_before prev (length (upper_run text)))
          ++ c :: scan true (Some c) rest
      else c :: scan false (Some c) rest
  end.

(** What the scan emits for the rest of the text from a cursor that is not
    inside a block being copied and whose predecessor is [prev]. *)
Definition segment_from (prev : option char) (text : str) : str :=
  scan false prev text.

Definition segment (text : str) : str := segment_from None text.

End Segmenter.

(** ** The sentence joiner of [restore_separators] *)

(** [re.sub(r'\n+', ' ', text)]: each maximal block of line breaks is
    replaced by one space.  [in_block] says that the previous character was
    a line break of the block being replaced. *)
Fixpoint sub_newlines (in_block : bool) (text : str) : str :=
  match text with
  | [] => []
  | c :: rest =>
      if (c =? nl)%N then
        (if in_block then [] else [space]) ++ sub_newlines true rest
      else c :: sub_newlines false rest
  end.

(** The class [[.!?]] of the lookbehind. *)
Definition terminal (c : char) : bool := existsb (N.eqb c) (of_string ".!?").

Definition after_terminal (prev : option char) : bool :=
  match prev with
  | None => false
  | Some p => terminal p
  end.

(** [separator.join(sentences)] *)
Fixpoint join (separator : str) (sentences : list str) : str :=
  match sentences with
  | [] => []
  | s :: rest =>
      match rest with
      | [] => s
      | _ :: _ => s ++ separator ++ join separator rest
      end
  end.

(** Truth value of a string: it is not empty. *)
Definition nonempty (s : str) : bool :=
  match s with
  | [] => false
  | _ :: _ => true
  end.

Section Joiner.

Context {T : CharTables}.

(** [re.split(r'(?<=[.!?])\s+', text)].  A match starts at a whitespace
    character that follows a terminal mark and takes the whole block of
    whitespace from there; the pieces are the text between the matches.
    [in_match] says that the scan is inside a match, [prev] is the
    character before the cursor, [piece] the piece collected since the
    last match. *)
Fixpoint split_loop (in_match : bool) (prev : option char) (piece : str)
  (text : str) : list str :=
  match text with
  | [] => [piece]
  | c :: rest =>
      if in_match then
        if isspace c then split_loop true (Some c) [] rest
        else split_loop false (Some c) [c] rest
      else
        if isspace c && after_terminal prev
        then piece :: split_loop true (Some c) [] rest
        else split_loop false (Some c) (piece ++ [c]) rest
  end.

Definition re_split (text : str) : list str := split_loop false None [] text.

(** [s.strip()] *)
Fixpoint lstrip (s : str) : str :=
  match s with
  | [] => []
  | c :: rest => if isspace c then lstrip rest else s
  end.

Definition rstrip (s : str) : str := rev (lstrip (rev s)).

Definition strip (s : str) : str := rstrip (lstrip s).

(** The last three statements of [restore_separators], on the text the
    segmenter returned. *)
Definition join_sentences (text : str) (separator : str) : str :=
  let sentences := re_split text in
  let sentences :=
    map strip (filter (fun s => nonempty (strip s)) sentences) in
  join separator sentences.

Definition restore_separators (text : str) (separator : str) : outcome str :=
  let text := sub_newlines false text in
  text <- heuristic_insert_linebreaks text ;;
  Done (join_sentences text separator).

(** *** The joiner in the words of the specification

    The text is cut after each block of whitespace that follows a terminal
    mark, so that the mark and the whitespace stay with the candidate
    before the cut; every candidate is trimmed, the empty ones are
    dropped, the others are joined. *)
Fixpoint cut_loop (in_gap : bool) (prev : option char) (candidate : str)
  (text : str) : list str :=
  match text with
  | [] => [candidate]
  | c :: rest =>
      if isspace c then
        cut_loop (in_gap || after_terminal prev) (Some c) (candidate ++ [c]) rest
      else if in_gap then candidate :: cut_loop false (Some c) [c] rest
      else cut_loop false (Some c) (candidate ++ [c]) rest
  end.

Definition candidates (text : str) : list str := cut_loop false None [] text.

Definition joined_candidates (text : str) (separator : str) : str :=
  join separator (filter nonempty (map strip (candidates text))).

(** The list [sentences] of [restore_separators] that is joined. *)
Definition sentences_of (text : str) : list str :=
  map strip (filter (fun s => nonempty (strip s)) (re_split text)).

End Joiner.

(** ** Predicates of the statements *)

Definition is_ascii (text : str) : bool := forallb (fun c => (c <? 128)%N) text.

(** The characters of [s] that are not whitespace, in order. *)
Definition visible {T : CharTables} (s : str) : str :=
  filter (fun c => negb (isspace c)) s.

(** [s] with its line breaks deleted. *)
Definition without_breaks (s : str) : str :=
  filter (fun c => negb (c =? nl)%N) s.

(** The separator occurs in [out] at offset [p] and covers position [k]. *)
Definition inside_separator (separator out : str) (k : nat) : Prop :=
  exists p, p <= k < p + length separator
            /\ firstn (length separator) (skipn p out) = separator.

(** Every line break of [out] lies inside an occurrence of the separator. *)
Definition breaks_from_separator (separator out : str) : Prop :=
  forall k, nth_error out k = Some nl -> inside_separator separator out k.

(** Every line break of [s] stands immediately before an uppercase letter. *)
Fixpoint breaks_before_upper {T : CharTables} (s : str) : bool :=
  match s with
  | [] => true
  | c :: rest =>
      (if (c =? nl)%N then
         match rest with
         | [] => false
         | c' :: _ => isupper c'
         end
       else true) && breaks_before_upper rest
  end.

(** The character after position [k] of [out] is an uppercase letter. *)
Definition before_upper {T : CharTables} (out : str) (k : nat) : Prop :=
  exists c, nth_error out (S k) = Some c /\ isupper c = true.

(** Every line break of [out] lies inside an occurrence of the separator or
    stands immediately before an uppercase letter. *)
Definition breaks_accounted {T : CharTables} (separator out : str) : Prop :=
  forall k, nth_error out k = Some nl ->
            inside_separator separator out k \/ before_upper out k.

(** [s] begins and ends with a character that is not whitespace. *)
Definition trimmed {T : CharTables} (s : str) : Prop :=
  exists a b, hd_error s = Some a /\ last_char s = Some b
              /\ isspace a = false /\ isspace b = false.

(** [s] ends with a terminal mark followed by a block of whitespace. *)
Definition ends_with_gap {T : CharTables} (s : str) : Prop :=
  exists x t ws,
    s = x ++ t :: ws /\ terminal t = true
    /\ ws <> [] /\ forallb isspace ws = true.

(** Somewhere in [s] a terminal mark is followed by a block of whitespace
    and then by a character that is not whitespace: a point where the
    specification cuts, just before that character. *)
Definition has_cut_point {T : CharTables} (s : str) : Prop :=
  exists x t ws d y,
    s = x ++ t :: ws ++ d :: y /\ terminal t = true
    /\ ws <> [] /\ forallb isspace ws = true /\ isspace d = false.

Definition starts_visible {T : CharTables} (s : str) : Prop :=
  exists d y, s = d :: y /\ isspace d = false.

(** Between two consecutive candidates the text was cut after a terminal
    mark and its whitespace, before a character that is not whitespace. *)
Fixpoint cut_at_gaps {T : CharTables} (l : list str) : Prop :=
  match l with
  | [] => True
  | a :: rest =>
      match rest with
      | [] => True
      | b :: _ => ends_with_gap a /\ starts_visible b /\ cut_at_gaps rest
      end
  end.

Definition no_breaks (s : str) : bool :=
  forallb (fun c => negb (c =? nl)%N) s.

Definition ends_upper {T : CharTables} (s : str) : bool :=
  match last_char s with
  | None => false
  | Some p => isupper p
  end.

(** [run] is a maximal block of uppercase letters of [pre ++ run ++ post]:
    it is not empty, all its characters are uppercase, and neither the
    character before it nor the character after it is. *)
Definition maximal_run {T : CharTables} (pre run post : str) : Prop :=
  nonempty run = true /\ forallb isupper run = true
  /\ starts_upper post = false /\ ends_upper pre = false.

(** ** The converter [convert_anki_to_studysmarter]

    The file is read as the list of its lines, as the iteration over the
    open file yields them; the workbook is the rows appended to its two
    sheets, each cell checked as openpyxl checks it; the messages printed
    to [sys.stderr] are kept as the values they are formatted from, and the
    two counts printed to [sys.stdout] as numbers.  Opening the file and
    saving the workbook are not modelled. *)

Definition tab : char := 9%N.
Definition hash : char := 35%N.

(** [s == t] *)
Fixpoint str_eqb (s t : str) : bool :=
  match s, t with
  | [], [] => true
  | c :: s', d :: t' => (c =? d)%N && str_eqb s' t'
  | _, _ => false
  end.

(** [s.startswith(prefix)] *)
Fixpoint startswith (prefix s : str) : bool :=
  match prefix, s with
  | [], _ => true
  | c :: prefix', d :: s' => (c =? d)%N && startswith prefix' s'
  | _ :: _, [] => false
  end.

(** [c in s] for a one-character string [c]. *)
Definition contains (c : char) (s : str) : bool := existsb (N.eqb c) s.

(** [s.split(sep, 1)] for a one-character separator: the text before the
    first separator and the text after it, or the text alone. *)
Fixpoint split_once (sep : char) (s : str) : list str :=
  match s with
  | [] => [[]]
  | c :: rest =>
      if (c =? sep)%N then [[]; rest]
      else match split_once sep rest with
           | [] => [[c]]
           | first :: others => (c :: first) :: others
           end
  end.

(** [parts[i]] for [0 <= i]. *)
Definition getpart (parts : list str) (i : nat) : outcome str :=
  match nth_error parts i with
  | Some part => Done part
  | None => IndexError
  end.

(** The two messages printed to [sys.stderr], with the line number and the
    text they show. *)
Inductive diagnostic : Type :=
| NoTabSeparator (line_number : nat) (line : str)
| AnswerMissing (line_number : nat) (question : str).

(** The line number and the text a message shows. *)
Definition shown_number (d : diagnostic) : nat :=
  match d with
  | NoTabSeparator n _ => n
  | AnswerMissing n _ => n
  end.

Definition shown_text (d : diagnostic) : str :=
  match d with
  | NoTabSeparator _ line => line
  | AnswerMissing _ question => question
  end.

Record card_lists : Type := {
  valid_cards : list (list str);
  error_cards : list str;
  stderr : list diagnostic
}.

Definition no_cards : card_lists :=
  {| valid_cards := []; error_cards := []; stderr := [] |}.

Definition sentinel : str := of_string "Verdeckungen ein/aus".

Definition header : list str :=
  map of_string
    [ "Question"; "Answer A";
      "Answer is correct (TRUE if yes, FALSE if no)";
      "Answer B"; "Answer is correct";
      "Answer C"; "Answer is correct";
      "Answer D"; "Answer is correct";
      "Answer E"; "Answer is correct";
      "Answer F"; "Answer is correct";
      "Tags"; "Tips"; "Explanation" ]%string.

Record sheet : Type := {
  title : str;
  rows : list (list str)
}.

(** What the run has printed when the loop is over: the messages on
    [sys.stderr] and the two counts on [sys.stdout]. *)
Record report : Type := {
  printed_stderr : list diagnostic;
  printed_valid : nat;
  printed_errors : nat
}.

(** The result of binding cells: the cells as the sheet holds them, or the
    [IllegalCharacterError] that openpyxl raises. *)
Inductive appended (A : Type) : Type :=
| Appended (a : A)
| IllegalCharacterError.

Arguments Appended {A} a.
Arguments IllegalCharacterError {A}.

(** The end of a run of the converter: what it printed, and the two sheets
    as they are when [wb.save] is reached, or the [IllegalCharacterError]
    of an [append], which the converter does not catch. *)
Record conversion : Type := {
  printed : report;
  workbook : appended (sheet * sheet)
}.

(** The control characters a worksheet cannot hold: U+0000..U+0008,
    U+000B, U+000C and U+000E..U+001F. *)
Definition illegal_character (c : char) : bool :=
  (c <=? 8)%N || ((11 <=? c)%N && (c <=? 12)%N)
  || ((14 <=? c)%N && (c <=? 31)%N).

Definition max_cell_length : nat := N.to_nat 32767.

(** The check openpyxl makes when a text is bound to a cell: the text is
    cut to its first 32767 characters, and a control character in what is
    left raises [IllegalCharacterError]. *)
Definition check_string (value : str) : appended str :=
  let value := firstn max_cell_length value in
  if existsb illegal_character value then IllegalCharacterError
  else Appended value.

(** [ws.append(row)]: the cells of the row are bound from left to right. *)
Fixpoint append_cells (row : list str) : appended (list str) :=
  match row with
  | [] => Appended []
  | value :: rest =>
      match check_string value with
      | IllegalCharacterError => IllegalCharacterError
      | Appended cell =>
          match append_cells rest with
          | IllegalCharacterError => IllegalCharacterError
          | Appended cells => Appended (cell :: cells)
          end
      end
  end.

(** The calls of [append] on one sheet, row after row. *)
Fixpoint append_rows (rows : list (list str)) : appended (list (list str)) :=
  match rows with
  | [] => Appended []
  | row :: rest =>
      match append_cells row with
      | IllegalCharacterError => IllegalCharacterError
      | Appended cells =>
          match append_rows rest with
          | IllegalCharacterError => IllegalCharacterError
          | Appended others => Appended (cells :: others)
          end
      end
  end.

(** [row + [''] * (len(header) - len(row))]; a count below zero gives no
    cell, as the truncated subtraction does. *)
Definition extended_row (row : list str) : list str :=
  row ++ repeat [] (length header - length row).

Section Converter.

Context {T : CharTables}.

(** The first test of the loop body, on the stripped line. *)
Definition skip_line (line : str) : bool :=
  negb (nonempty line) || startswith [hash] line || str_eqb line sentinel.

(** The loop [for line_number, line in enumerate(f, start=1)], from the
    line numbered [line_number], with the lists filled so far. *)
Fixpoint read_cards (line_number : nat) (lines : list str) (acc : card_lists)
  : outcome card_lists :=
  match lines with
  | [] => Done acc
  | line :: rest =>
      let line := strip line in
      if skip_line line then read_cards (S line_number) rest acc
      else if negb (contains tab line) then
        read_cards (S line_number) rest
          {| valid_cards := valid_cards acc;
             error_cards := error_cards acc ++ [line];
             stderr := stderr acc ++ [NoTabSeparator line_number line] |}
      else
        let parts := split_once tab line in
        first <- getpart parts 0 ;;
        let question := strip first in
        answer <- (if 1 <? length parts
                   then second <- getpart parts 1 ;; Done (strip second)
                   else Done []) ;;
        if negb (nonempty answer) then
          read_cards (S line_number) rest
            {| valid_cards := valid_cards acc;
               error_cards := error_cards acc ++ [question];
               stderr := stderr acc ++ [AnswerMissing line_number question] |}
        else
          answer' <- restore_separators answer [nl] ;;
          read_cards (S line_number) rest
            {| valid_cards :=
                 valid_cards acc ++ [[question; answer'; of_string "TRUE"]];
               error_cards := error_cards acc;
               stderr := stderr acc |}
  end.

(** After the loop: the counts are printed, then the sheet of valid cards
    is filled, then the sheet of errors.  [Done] ends the run of the
    model; whether the program returns or raises is the [workbook]. *)
Definition convert_anki_to_studysmarter (lines : list str)
  : outcome conversion :=
  cards <- read_cards 1 lines no_cards ;;
  Done {| printed :=
            {| printed_stderr := stderr cards;
               printed_valid := length (valid_cards cards);
               printed_errors := length (error_cards cards) |};
          workbook :=
            match append_rows
                    (header :: map extended_row (valid_cards cards)) with
            | IllegalCharacterError => IllegalCharacterError
            | Appended valid_rows =>
                match append_rows
                        ([of_string "Question"]
                           :: map (fun question => [question])
                                (error_cards cards)) with
                | IllegalCharacterError => IllegalCharacterError
                | Appended error_rows =>
                    Appended
                      ({| title := of_string "Valid Cards";
                          rows := valid_rows |},
                       {| title := of_string "errors";
                          rows := error_rows |})
                end
            end |}.

(** *** The loop as a pass over the numbered lines *)

(** What [restore_separators] returns ([restore_separators_run]). *)
Definition restored (text separator : str) : str :=
  join_sentences (segment (sub_newlines false text)) separator.

(** The text before the first [sep], and the text after it. *)
Fixpoint before_first (sep : char) (s : str) : str :=
  match s with
  | [] => []
  | c :: rest => if (c =? sep)%N then [] else c :: before_first sep rest
  end.

Fixpoint after_first (sep : char) (s : str) : str :=
  match s with
  | [] => []
  | c :: rest => if (c =? sep)%N then rest else after_first sep rest
  end.

Definition skipped (line : str) : bool := skip_line (strip line).

Definition rejected (line : str) : bool :=
  negb (skipped line) && negb (contains tab (strip line)).

Definition accepted (line : str) : bool :=
  negb (skipped line) && contains tab (strip line).

Definition card_of (line : str) : list str :=
  [ strip (before_first tab (strip line));
    restored (strip (after_first tab (strip line))) [nl];
    of_string "TRUE" ].

(** [enumerate(lines, start)] *)
Definition enumerate (start : nat) (lines : list str) : list (nat * str) :=
  combine (seq start (length lines)) lines.

End Converter.

(** The character after position [k] of [out] is not whitespace. *)
Definition break_before_visible {T : CharTables} (out : str) (k : nat) : Prop :=
  exists c, nth_error out (S k) = Some c /\ isspace c = false.

(** ** List and index facts *)

Lemma getitem_here (done rest : str) (c : char) :
  getitem (done ++ c :: rest) (length done) = Done c.
Proof.
  unfold getitem. rewrite nth_error_app2 by lia.
  now rewrite Nat.sub_diag.
Qed.

Lemma cursor_inside (done rest : str) (c : char) :
  (length done <? length (done ++ c :: rest)) = true.
Proof.
  apply Nat.ltb_lt. rewrite length_app. simpl. lia.
Qed.

Lemma cursor_at_end (done : str) :
  (length done <? length (done ++ [])) = false.
Proof.
  rewrite app_nil_r. apply Nat.ltb_irrefl.
Qed.

Lemma snoc_assoc (done rest : str) (c : char) :
  done ++ c :: rest = (done ++ [c]) ++ rest.
Proof.
  now rewrite <- app_assoc.
Qed.

Lemma length_snoc (done : str) (c : char) :
  length (done ++ [c]) = S (length done).
Proof.
  rewrite length_app. simpl. lia.
Qed.

Lemma last_char_snoc (s : str) (c : char) : last_char (s ++ [c]) = Some c.
Proof.
  unfold last_char. rewrite length_snoc. simpl. rewrite Nat.sub_0_r.
  rewrite nth_error_app2 by lia. now rewrite Nat.sub_diag.
Qed.

Lemma last_char_app (s t : str) :
  t <> [] -> last_char (s ++ t) = last_char t.
Proof.
  intros Ht. destruct (exists_last Ht) as [t' [c ->]].
  now rewrite app_assoc, !last_char_snoc.
Qed.

Lemma last_char_cons (a b : char) (s : str) :
  last_char (a :: b :: s) = last_char (b :: s).
Proof.
  apply (last_char_app [a]). discriminate.
Qed.

Section SegmenterFacts.

Context {T : CharTables}.

(** *** Uppercase blocks *)

Lemma upper_run_split (text : str) : upper_run text ++ after_run text = text.
Proof.
  induction text as [|c rest IH]; simpl; [reflexivity|].
  destruct (isupper c); simpl; [now rewrite IH | reflexivity].
Qed.

Lemma upper_run_upper (text : str) : forallb isupper (upper_run text) = true.
Proof.
  induction text as [|c rest IH]; simpl; [reflexivity|].
  destruct (isupper c) eqn:Hc; simpl; [now rewrite Hc | reflexivity].
Qed.

Lemma after_run_stops (text : str) : starts_upper (after_run text) = false.
Proof.
  induction text as [|c rest IH]; simpl; [reflexivity|].
  destruct (isupper c) eqn:Hc; simpl; [exact IH | exact Hc].
Qed.

Lemma upper_run_app (run post : str) :
  forallb isupper run = true -> starts_upper post = false ->
  upper_run (run ++ post) = run /\ after_run (run ++ post) = post.
Proof.
  intros Hrun Hpost. induction run as [|c run IH]; simpl in *.
  - destruct post as [|d post]; simpl in *; [now split|].
    now rewrite Hpost.
  - apply andb_true_iff in Hrun as [Hc Hrun]. rewrite Hc.
    destruct (IH Hrun) as [-> ->]. now split.
Qed.

(** *** The inner loops *)

Lemma copy_upper_run (run : str) :
  forall (done rest result : str) (fuel : nat),
    forallb isupper run = true -> starts_upper rest = false ->
    length run < fuel ->
    copy_upper fuel (done ++ run ++ rest) (length done) result
    = Done (length done + length run, result ++ run).
Proof.
  induction run as [|c run IH]; intros done rest result fuel Hup Hstop Hfuel;
    (destruct fuel as [|fuel]; [simpl in Hfuel; lia|]).
  - simpl app. rewrite Nat.add_0_r, app_nil_r.
    destruct rest as [|d rest]; cbn [copy_upper].
    + now rewrite cursor_at_end.
    + rewrite cursor_inside, getitem_here. cbn [bind].
      simpl in Hstop. now rewrite Hstop.
  - simpl in Hup. apply andb_true_iff in Hup as [Hc Hup].
    simpl app. cbn [copy_upper].
    rewrite cursor_inside, getitem_here. cbn [bind]. rewrite Hc.
    rewrite snoc_assoc, <- (length_snoc done c).
    rewrite IH by (auto; simpl in Hfuel; lia).
    rewrite length_snoc, <- app_assoc. simpl. do 2 f_equal. lia.
Qed.

Lemma count_upper_run (run : str) :
  forall (done rest : str) (group_len fuel : nat),
    forallb isupper run = true -> starts_upper rest = false ->
    length run < fuel ->
    count_upper fuel (done ++ run ++ rest) (length done) group_len
    = Done (length done + length run, group_len + length run).
Proof.
  induction run as [|c run IH]; intros done rest group_len fuel Hup Hstop Hfuel;
    (destruct fuel as [|fuel]; [simpl in Hfuel; lia|]).
  - simpl app. simpl length. rewrite !Nat.add_0_r.
    destruct rest as [|d rest]; cbn [count_upper].
    + now rewrite cursor_at_end.
    + rewrite cursor_inside, getitem_here. cbn [bind].
      simpl in Hstop. now rewrite Hstop.
  - simpl in Hup. apply andb_true_iff in Hup as [Hc Hup].
    simpl app. cbn [count_upper].
    rewrite cursor_inside, getitem_here. cbn [bind]. rewrite Hc.
    rewrite snoc_assoc, <- (length_snoc done c).
    rewrite IH by (auto; simpl in Hfuel; lia).
    rewrite length_snoc. simpl. do 2 f_equal; lia.
Qed.

Lemma copy_range_run (mid : str) :
  forall (done rest result : str) (fuel : nat),
    length mid < fuel ->
    copy_range fuel (done ++ mid ++ rest) (length done)
      (length done + length mid) result
    = Done (length done + length mid, result ++ mid).
Proof.
  induction mid as [|c mid IH]; intros done rest result fuel Hfuel;
    (destruct fuel as [|fuel]; [simpl in Hfuel; lia|]).
  - simpl length. rewrite Nat.add_0_r, app_nil_r. cbn [copy_range].
    now rewrite Nat.ltb_irrefl.
  - simpl app. cbn [copy_range].
    replace (length done <? length done + length (c :: mid)) with true
      by (symmetry; apply Nat.ltb_lt; simpl; lia).
    rewrite getitem_here. cbn [bind].
    replace (length done + length (c :: mid))
      with (length (done ++ [c]) + length mid)
      by (rewrite length_snoc; simpl; lia).
    rewrite snoc_assoc, <- (length_snoc done c).
    rewrite IH by (simpl in Hfuel; lia).
    now rewrite <- app_assoc.
Qed.

Lemma context_test (done rest : str) :
  (if length done =? 0 then Done true
   else p <- getitem (done ++ rest) (length done - 1) ;; Done (in_forbidden p))
  = Done (start_or_forbidden (last_char done)).
Proof.
  destruct done as [|d done]; [reflexivity|].
  change (length (d :: done) =? 0) with false. cbv iota.
  unfold getitem, last_char.
  rewrite nth_error_app1 by (simpl; lia).
  destruct (nth_error (d :: done) (length (d :: done) - 1)) as [p|] eqn:Hp;
    [reflexivity|].
  apply nth_error_None in Hp. simpl in Hp. lia.
Qed.

(** *** The scan by recursion on the text *)

Lemma scan_in_run (text : str) :
  forall p, scan true (Some p) text
            = upper_run text
              ++ scan false (last_char (p :: upper_run text)) (after_run text).
Proof.
  induction text as [|c rest IH]; intros p; [reflexivity|].
  cbn [scan upper_run after_run]. destruct (isupper c) eqn:Hc.
  - rewrite IH, last_char_cons. reflexivity.
  - cbn [app scan]. now rewrite Hc.
Qed.

Lemma scan_block (prev : option char) (c : char) (rest : str) :
  isupper c = true ->
  scan false prev (c :: rest)
  = break_before prev (length (upper_run (c :: rest)))
    ++ upper_run (c :: rest)
    ++ scan false (last_char (upper_run (c :: rest))) (after_run (c :: rest)).
Proof.
  intros Hc. cbn [scan]. rewrite Hc, scan_in_run.
  cbn [upper_run after_run]. now rewrite Hc.
Qed.

Lemma upper_run_length (text : str) : length (upper_run text) <= length text.
Proof.
  rewrite <- (upper_run_split text) at 2. rewrite length_app. lia.
Qed.

(** *** The outer loop computes the scan *)

Lemma scan_loop_run (fuel : nat) :
  forall rest done result,
    length rest + 2 <= fuel ->
    scan_loop fuel (done ++ rest) (length done) result
    = Done (result ++ scan false (last_char done) rest).
Proof.
  induction fuel as [|fuel IH]; intros rest done result Hfuel; [lia|].
  destruct rest as [|c rest].
  - cbn [scan_loop scan]. now rewrite cursor_at_end, app_nil_r.
  - cbn [scan_loop]. rewrite cursor_inside, getitem_here. cbn [bind].
    destruct (isupper c) eqn:Hc.
    + rewrite context_test. cbn [bind]. rewrite (scan_block _ _ _ Hc).
      pose proof (upper_run_split (c :: rest)) as Hsplit.
      pose proof (upper_run_upper (c :: rest)) as Hup.
      pose proof (after_run_stops (c :: rest)) as Hstop.
      pose proof (upper_run_length (c :: rest)) as Hlen.
      assert (Hne : upper_run (c :: rest) <> [])
        by (simpl; rewrite Hc; discriminate).
      assert (Hpos : 0 < length (upper_run (c :: rest)))
        by (simpl; rewrite Hc; simpl; lia).
      set (run := upper_run (c :: rest)) in *.
      set (post := after_run (c :: rest)) in *.
      assert (Hlp : length run + length post = length (c :: rest))
        by (rewrite <- Hsplit, length_app; reflexivity).
      rewrite <- Hsplit. simpl in Hfuel. simpl in Hlp.
      assert (Hnext : forall acc,
                 scan_loop fuel (done ++ run ++ post)
                   (length done + length run) acc
                 = Done (acc ++ scan false (last_char run) post)).
      { intros acc. rewrite app_assoc, <- length_app.
        rewrite IH by lia. now rewrite last_char_app. }
      unfold start_or_forbidden, break_before.
      destruct (last_char done) as [p|].
      * destruct (in_forbidden p).
        -- rewrite copy_upper_run by (auto; lia). cbn [bind fst snd].
           rewrite Hnext. now rewrite <- app_assoc.
        -- rewrite count_upper_run by (auto; lia). cbn [bind fst snd].
           simpl (0 + _). destruct (length run <=? 2).
           ++ rewrite copy_range_run by lia. cbn [bind fst snd].
              rewrite Hnext. now rewrite <- !app_assoc.
           ++ rewrite copy_range_run by lia. cbn [bind fst snd].
              rewrite Hnext. now rewrite <- app_assoc.
      * rewrite copy_upper_run by (auto; lia). cbn [bind fst snd].
        rewrite Hnext. now rewrite <- app_assoc.
    + rewrite snoc_assoc, <- (length_snoc done c).
      rewrite IH by (simpl in Hfuel; lia).
      rewrite last_char_snoc, <- app_assoc. cbn [scan]. now rewrite Hc.
Qed.

Lemma heuristic_insert_linebreaks_segment (text : str) :
  heuristic_insert_linebreaks text = Done (segment text).
Proof.
  unfold heuristic_insert_linebreaks, segment.
  apply (scan_loop_run (length text + 2) text [] []). lia.
Qed.

End SegmenterFacts.

(** ** Properties of the segmenter *)

Section SegmenterProperties.

Context {T : CharTables}.

Lemma isupper_tables (c : char) :
  (c < 128)%N -> isupper c = @isupper ascii_tables c.
Proof.
  intros H. now rewrite (isupper_ascii c H), (@isupper_ascii ascii_tables c H).
Qed.

Lemma isspace_tables (c : char) :
  (c < 128)%N -> isspace c = @isspace ascii_tables c.
Proof.
  intros H. now rewrite (isspace_ascii c H), (@isspace_ascii ascii_tables c H).
Qed.

Lemma is_ascii_cons (c : char) (s : str) :
  is_ascii (c :: s) = true -> (c < 128)%N /\ is_ascii s = true.
Proof.
  unfold is_ascii. simpl. rewrite andb_true_iff, N.ltb_lt. tauto.
Qed.

Lemma upper_run_tables (text : str) :
  is_ascii text = true -> upper_run text = @upper_run ascii_tables text.
Proof.
  induction text as [|c rest IH]; intros H; [reflexivity|].
  apply is_ascii_cons in H as [Hc H]. cbn [upper_run].
  now rewrite (isupper_tables c Hc), IH.
Qed.

Lemma scan_tables (text : str) :
  forall in_run prev,
    is_ascii text = true ->
    scan in_run prev text = @scan ascii_tables in_run prev text.
Proof.
  induction text as [|c rest IH]; intros in_run prev H; [reflexivity|].
  pose proof (upper_run_tables _ H) as Hrun.
  apply is_ascii_cons in H as [Hc H]. cbn [scan].
  now rewrite Hrun, (isupper_tables c Hc), !IH.
Qed.

(** On ASCII text the segmenter does not depend on the Unicode tables. *)
Lemma heuristic_insert_linebreaks_tables (text : str) :
  is_ascii text = true ->
  heuristic_insert_linebreaks text = Done (@segment ascii_tables text).
Proof.
  intros H. rewrite heuristic_insert_linebreaks_segment.
  unfold segment, segment_from. now rewrite scan_tables.
Qed.

(** *** Text without uppercase letters *)

Lemma scan_no_upper (text : str) :
  forall in_run prev,
    forallb (fun c => negb (isupper c)) text = true ->
    scan in_run prev text = text.
Proof.
  induction text as [|c rest IH]; intros in_run prev H; [reflexivity|].
  simpl in H. apply andb_true_iff in H as [Hc H].
  apply negb_true_iff in Hc. cbn [scan]. now rewrite Hc, IH.
Qed.

(** *** Only line breaks are inserted *)

Lemma break_before_cases (prev : option char) (n : nat) :
  break_before prev n = [] \/ break_before prev n = [nl].
Proof.
  unfold break_before. destruct prev as [p|]; [|now left].
  destruct (in_forbidden p); [now left|].
  destruct (n <=? 2); [now right | now left].
Qed.

Lemma scan_filter (keep : char -> bool) (text : str) :
  keep nl = false ->
  forall in_run prev,
    filter keep (scan in_run prev text) = filter keep text.
Proof.
  intros Hnl. induction text as [|c rest IH]; intros in_run prev;
    [reflexivity|].
  cbn [scan]. destruct (isupper c).
  - rewrite filter_app. cbn [filter]. rewrite IH.
    destruct in_run; [reflexivity|].
    destruct (break_before_cases prev (length (upper_run (c :: rest))))
      as [-> | ->]; simpl; [reflexivity | now rewrite Hnl].
  - cbn [filter]. now rewrite IH.
Qed.

Lemma isspace_nl : isspace nl = true.
Proof.
  now rewrite isspace_ascii.
Qed.

Lemma isspace_space : isspace space = true.
Proof.
  now rewrite isspace_ascii.
Qed.

Lemma visible_scan (text : str) (in_run : bool) (prev : option char) :
  visible (scan in_run prev text) = visible text.
Proof.
  apply scan_filter. now rewrite isspace_nl.
Qed.

Lemma without_breaks_scan (text : str) (in_run : bool) (prev : option char) :
  without_breaks (scan in_run prev text) = without_breaks text.
Proof.
  now apply scan_filter.
Qed.

Lemma without_breaks_id (text : str) :
  no_breaks text = true ->
  without_breaks text = text.
Proof.
  induction text as [|c rest IH]; intros H; [reflexivity|].
  simpl in H. apply andb_true_iff in H as [Hc H].
  unfold without_breaks in *. simpl. now rewrite Hc, IH.
Qed.

(** *** The scan around one uppercase block *)

Lemma upper_run_prefix (pre : str) :
  forall x,
    pre <> [] ->
    (forall q, last_char pre = Some q -> isupper q = false) ->
    upper_run (pre ++ x) = upper_run pre.
Proof.
  induction pre as [|a pre IH]; intros x Hne Hlast; [contradiction|].
  simpl. destruct (isupper a) eqn:Ha; [|reflexivity].
  destruct pre as [|b pre].
  - rewrite (Hlast a eq_refl) in Ha. discriminate.
  - f_equal. apply IH; [discriminate|].
    intros q Hq. apply Hlast. now rewrite last_char_cons.
Qed.

Lemma scan_prefix (pre : str) :
  forall in_run prev x,
    pre <> [] ->
    (forall q, last_char pre = Some q -> isupper q = false) ->
    scan in_run prev (pre ++ x)
    = scan in_run prev pre ++ segment_from (last_char pre) x.
Proof.
  induction pre as [|a pre IH]; intros in_run prev x Hne Hlast;
    [contradiction|].
  pose proof (upper_run_prefix (a :: pre) x Hne Hlast) as Hrun.
  destruct pre as [|b pre].
  - simpl. now rewrite (Hlast a eq_refl).
  - assert (Hlast' : forall q, last_char (b :: pre) = Some q -> isupper q = false)
      by (intros q Hq; apply Hlast; now rewrite last_char_cons).
    rewrite last_char_cons.
    change ((a :: b :: pre) ++ x) with (a :: (b :: pre) ++ x) in *.
    cbn [scan]. rewrite Hrun.
    destruct (isupper a).
    + rewrite IH by (auto; discriminate).
      now rewrite <- app_assoc, app_comm_cons.
    + rewrite IH by (auto; discriminate). reflexivity.
Qed.

Lemma segment_at_run (pre run post : str) :
  maximal_run pre run post ->
  segment (pre ++ run ++ post)
  = segment pre ++ break_before (last_char pre) (length run)
    ++ run ++ segment_from (last_char run) post.
Proof.
  intros (Hne & Hup & Hstop & Hend).
  assert (Hlast : forall q, last_char pre = Some q -> isupper q = false)
    by (intros q Hq; unfold ends_upper in Hend; now rewrite Hq in Hend).
  destruct (upper_run_app run post Hup Hstop) as [Hrun Hpost].
  assert (Hblock : forall prev,
             segment_from prev (run ++ post)
             = break_before prev (length run)
               ++ run ++ segment_from (last_char run) post).
  { intros prev. destruct run as [|c run]; [discriminate|].
    simpl in Hup. apply andb_true_iff in Hup as [Hc _].
    unfold segment_from. change ((c :: run) ++ post) with (c :: run ++ post) in *.
    now rewrite (scan_block _ _ _ Hc), Hrun, Hpost. }
  destruct pre as [|a pre].
  - apply Hblock.
  - unfold segment, segment_from at 1.
    rewrite scan_prefix by (auto; discriminate). now rewrite Hblock.
Qed.

Lemma segment_head (text : str) : hd_error (segment text) = hd_error text.
Proof.
  destruct text as [|c rest]; [reflexivity|].
  unfold segment, segment_from. cbn [scan break_before].
  now destruct (isupper c).
Qed.

End SegmenterProperties.

(** ** Properties of the joiner *)

Lemma forallb_rev (f : char -> bool) (s : str) :
  forallb f (rev s) = forallb f s.
Proof.
  induction s as [|c s IH]; [reflexivity|].
  simpl. rewrite forallb_app, IH. simpl. rewrite andb_true_r. apply andb_comm.
Qed.

Lemma trim_filter_swap (trim : str -> str) (pieces : list str) :
  map trim (filter (fun s => nonempty (trim s)) pieces)
  = filter nonempty (map trim pieces).
Proof.
  induction pieces as [|s pieces IH]; [reflexivity|].
  simpl. destruct (nonempty (trim s)); simpl; now rewrite IH.
Qed.

Section JoinerFacts.

Context {T : CharTables}.

(** *** Trimming *)

Lemma lstrip_split (s : str) :
  exists ws, s = ws ++ lstrip s /\ forallb isspace ws = true.
Proof.
  induction s as [|c s (ws & Hs & Hws)].
  - now exists [].
  - simpl. destruct (isspace c) eqn:Hc.
    + exists (c :: ws). simpl. rewrite Hc, Hws. split; [now f_equal | reflexivity].
    + now exists [].
Qed.

Lemma rstrip_split (s : str) :
  exists ws, s = rstrip s ++ ws /\ forallb isspace ws = true.
Proof.
  destruct (lstrip_split (rev s)) as (ws & Hs & Hws).
  exists (rev ws). split.
  - unfold rstrip. rewrite <- rev_app_distr, <- Hs. now rewrite rev_involutive.
  - now rewrite forallb_rev.
Qed.

Lemma lstrip_whitespace (ws s : str) :
  forallb isspace ws = true -> lstrip (ws ++ s) = lstrip s.
Proof.
  induction ws as [|c ws IH]; intros H; [reflexivity|].
  simpl in *. apply andb_true_iff in H as [Hc H]. now rewrite Hc, IH.
Qed.

Lemma lstrip_head (s : str) (c : char) (rest : str) :
  lstrip s = c :: rest -> isspace c = false.
Proof.
  induction s as [|a s IH]; simpl; [discriminate|].
  destruct (isspace a) eqn:Ha; [exact IH|].
  intros H. injection H as -> _. exact Ha.
Qed.

Lemma lstrip_app (s ws : str) :
  forallb isspace ws = true ->
  (lstrip s = [] /\ lstrip (s ++ ws) = [])
  \/ (lstrip s <> [] /\ lstrip (s ++ ws) = lstrip s ++ ws).
Proof.
  intros Hws. induction s as [|c s IH].
  - left. split; [reflexivity|].
    simpl. rewrite <- (app_nil_r ws). now apply lstrip_whitespace.
  - simpl. destruct (isspace c); [exact IH|].
    right. split; [discriminate | reflexivity].
Qed.

Lemma rstrip_whitespace (s ws : str) :
  forallb isspace ws = true -> rstrip (s ++ ws) = rstrip s.
Proof.
  intros Hws. unfold rstrip. rewrite rev_app_distr.
  rewrite lstrip_whitespace; [reflexivity | now rewrite forallb_rev].
Qed.

Lemma strip_whitespace (s ws : str) :
  forallb isspace ws = true -> strip (s ++ ws) = strip s.
Proof.
  intros Hws. unfold strip.
  destruct (lstrip_app s ws Hws) as [[-> ->] | [_ ->]]; [reflexivity|].
  now apply rstrip_whitespace.
Qed.

(** *** The split of the code and the cut of the specification *)

Lemma split_cut (text : str) :
  (forall prev piece ws,
      forallb isspace ws = true ->
      filter nonempty (map strip (piece :: split_loop true prev [] text))
      = filter nonempty (map strip (cut_loop true prev (piece ++ ws) text)))
  /\ (forall prev piece,
         filter nonempty (map strip (split_loop false prev piece text))
         = filter nonempty (map strip (cut_loop false prev piece text))).
Proof.
  induction text as [|c rest [IHgap IHtext]]; split.
  - intros prev piece ws Hws. simpl. now rewrite strip_whitespace.
  - reflexivity.
  - intros prev piece ws Hws. cbn [split_loop cut_loop].
    destruct (isspace c) eqn:Hc.
    + rewrite <- app_assoc. apply IHgap.
      rewrite forallb_app, Hws. simpl. now rewrite Hc.
    + cbn [map filter orb]. rewrite (strip_whitespace _ _ Hws).
      now rewrite IHtext.
  - intros prev piece. cbn [split_loop cut_loop].
    destruct (isspace c) eqn:Hc; cbn [andb orb]; [|apply IHtext].
    destruct (after_terminal prev); [|apply IHtext].
    apply IHgap. simpl. now rewrite Hc.
Qed.

Lemma join_sentences_candidates (text separator : str) :
  join_sentences text separator = joined_candidates text separator.
Proof.
  unfold join_sentences, joined_candidates, re_split, candidates.
  rewrite trim_filter_swap. f_equal. apply split_cut.
Qed.

Lemma cut_loop_concat (text : str) :
  forall in_gap prev candidate,
    concat (cut_loop in_gap prev candidate text) = candidate ++ text.
Proof.
  induction text as [|c rest IH]; intros in_gap prev candidate.
  - simpl. now rewrite app_nil_r.
  - cbn [cut_loop]. destruct (isspace c).
    + now rewrite IH, <- app_assoc.
    + destruct in_gap.
      * cbn [concat]. now rewrite IH.
      * now rewrite IH, <- app_assoc.
Qed.

Lemma filter_nonempty (pieces : list str) :
  forallb nonempty (filter nonempty pieces) = true.
Proof.
  induction pieces as [|s pieces IH]; [reflexivity|].
  simpl. destruct (nonempty s) eqn:Hs; simpl; [now rewrite Hs | exact IH].
Qed.

End JoinerFacts.

(** ** ASCII text and the Unicode tables *)

Lemma is_ascii_app (s t : str) :
  is_ascii (s ++ t) = is_ascii s && is_ascii t.
Proof.
  apply forallb_app.
Qed.

Lemma is_ascii_cons_eq (c : char) (s : str) :
  is_ascii (c :: s) = (c <? 128)%N && is_ascii s.
Proof.
  reflexivity.
Qed.

Lemma is_ascii_sub_newlines (text : str) :
  forall in_block,
    is_ascii text = true -> is_ascii (sub_newlines in_block text) = true.
Proof.
  induction text as [|c rest IH]; intros in_block H; [reflexivity|].
  simpl in H. apply andb_true_iff in H as [Hc H]. cbn [sub_newlines].
  destruct (c =? nl)%N.
  - rewrite is_ascii_app, IH by exact H. now destruct in_block.
  - simpl. now rewrite Hc, IH.
Qed.

Section AsciiScan.

Context {T : CharTables}.

Lemma is_ascii_scan (text : str) :
  forall in_run prev,
    is_ascii text = true -> is_ascii (scan in_run prev text) = true.
Proof.
  induction text as [|c rest IH]; intros in_run prev H; [reflexivity|].
  apply is_ascii_cons in H as [Hc H]. apply N.ltb_lt in Hc.
  assert (Hstep : forall b, is_ascii (c :: scan b (Some c) rest) = true)
    by (intros b; rewrite is_ascii_cons_eq, Hc; now apply IH).
  cbn [scan]. destruct (isupper c); [|apply Hstep].
  rewrite is_ascii_app, Hstep, andb_true_r.
  destruct in_run; [reflexivity|].
  now destruct (break_before_cases prev (length (upper_run (c :: rest))))
    as [-> | ->].
Qed.

End AsciiScan.

Section TablesOnAscii.

Context {T : CharTables}.

Lemma split_loop_tables (text : str) :
  forall in_match prev piece,
    is_ascii text = true ->
    split_loop in_match prev piece text
    = @split_loop ascii_tables in_match prev piece text.
Proof.
  induction text as [|c rest IH]; intros in_match prev piece H; [reflexivity|].
  apply is_ascii_cons in H as [Hc H]. cbn [split_loop].
  now rewrite (isspace_tables c Hc), !IH.
Qed.

Lemma is_ascii_split_loop (text : str) :
  forall in_match prev piece,
    is_ascii piece = true -> is_ascii text = true ->
    forallb is_ascii (split_loop in_match prev piece text) = true.
Proof.
  induction text as [|c rest IH]; intros in_match prev piece Hp H.
  - simpl. now rewrite Hp.
  - simpl in H. apply andb_true_iff in H as [Hc H]. cbn [split_loop].
    assert (Hpc : is_ascii (piece ++ [c]) = true)
      by (rewrite is_ascii_app, Hp; simpl; now rewrite Hc).
    assert (Hc1 : is_ascii [c] = true) by (simpl; now rewrite Hc).
    destruct in_match.
    + destruct (isspace c); now apply IH.
    + destruct (isspace c && after_terminal prev).
      * simpl. rewrite Hp. now apply IH.
      * now apply IH.
Qed.

Lemma lstrip_tables (s : str) :
  is_ascii s = true -> lstrip s = @lstrip ascii_tables s.
Proof.
  induction s as [|c s IH]; intros H; [reflexivity|].
  apply is_ascii_cons in H as [Hc H]. cbn [lstrip].
  now rewrite (isspace_tables c Hc), IH.
Qed.

Lemma is_ascii_lstrip (s : str) :
  is_ascii s = true -> is_ascii (lstrip s) = true.
Proof.
  destruct (lstrip_split s) as (ws & Hs & _). intros H.
  rewrite Hs, is_ascii_app in H. now apply andb_true_iff in H as [_ H].
Qed.

Lemma strip_tables (s : str) :
  is_ascii s = true -> strip s = @strip ascii_tables s.
Proof.
  intros H. unfold strip, rstrip.
  rewrite <- (lstrip_tables s H). f_equal. apply lstrip_tables.
  unfold is_ascii. rewrite forallb_rev. now apply is_ascii_lstrip.
Qed.

Lemma sentences_tables (pieces : list str) :
  forallb is_ascii pieces = true ->
  map strip (filter (fun s => nonempty (strip s)) pieces)
  = map (@strip ascii_tables)
      (filter (fun s => nonempty (@strip ascii_tables s)) pieces).
Proof.
  induction pieces as [|s pieces IH]; intros Hp; [reflexivity|].
  cbn [forallb] in Hp. apply andb_true_iff in Hp as [Hs Hp].
  cbn [filter]. rewrite <- (strip_tables s Hs).
  destruct (nonempty (strip s)); cbn [map];
    now rewrite IH, <- ?(strip_tables s Hs).
Qed.

Lemma join_sentences_tables (text separator : str) :
  is_ascii text = true ->
  join_sentences text separator = @join_sentences ascii_tables text separator.
Proof.
  intros H. unfold join_sentences, re_split.
  rewrite <- (split_loop_tables text false None [] H).
  f_equal. apply sentences_tables.
  now apply is_ascii_split_loop.
Qed.

(** On ASCII text [restore_separators] does not depend on the tables. *)
Lemma restore_separators_tables (text separator : str) :
  is_ascii text = true ->
  restore_separators text separator
  = Done (@join_sentences ascii_tables
            (@segment ascii_tables (sub_newlines false text)) separator).
Proof.
  intros H. unfold restore_separators.
  pose proof (is_ascii_sub_newlines text false H) as H1.
  rewrite (heuristic_insert_linebreaks_tables _ H1). cbn [bind].
  f_equal. apply join_sentences_tables.
  apply (@is_ascii_scan ascii_tables). exact H1.
Qed.

End TablesOnAscii.

(** ** Visible characters through the joiner *)

Section VisibleCharacters.

Context {T : CharTables}.

Lemma visible_app (s t : str) : visible (s ++ t) = visible s ++ visible t.
Proof.
  apply filter_app.
Qed.

Lemma visible_whitespace (ws : str) :
  forallb isspace ws = true -> visible ws = [].
Proof.
  induction ws as [|c ws IH]; intros H; [reflexivity|].
  simpl in H. apply andb_true_iff in H as [Hc H].
  unfold visible in *. simpl. now rewrite Hc, IH.
Qed.

Lemma visible_sub_newlines (text : str) :
  forall in_block, visible (sub_newlines in_block text) = visible text.
Proof.
  induction text as [|c rest IH]; intros in_block; [reflexivity|].
  cbn [sub_newlines]. destruct (c =? nl)%N eqn:Hc.
  - apply N.eqb_eq in Hc. subst c. rewrite visible_app, IH.
    unfold visible at 3. simpl. rewrite isspace_nl. simpl.
    destruct in_block; [reflexivity|].
    unfold visible at 1. simpl. now rewrite isspace_space.
  - unfold visible in *. simpl. now rewrite IH.
Qed.

Lemma visible_lstrip (s : str) : visible (lstrip s) = visible s.
Proof.
  destruct (lstrip_split s) as (ws & Hs & Hws).
  rewrite Hs at 2. now rewrite visible_app, (visible_whitespace ws Hws).
Qed.

Lemma visible_strip (s : str) : visible (strip s) = visible s.
Proof.
  unfold strip. destruct (rstrip_split (lstrip s)) as (ws & Hs & Hws).
  rewrite <- (visible_lstrip s). rewrite Hs at 2.
  now rewrite visible_app, (visible_whitespace ws Hws), app_nil_r.
Qed.

Lemma visible_cons_space (c : char) (s : str) :
  isspace c = true -> visible (c :: s) = visible s.
Proof.
  intros H. unfold visible. simpl. now rewrite H.
Qed.

Lemma visible_split_loop (text : str) :
  (forall prev, visible (concat (split_loop true prev [] text)) = visible text)
  /\ (forall prev piece,
         visible (concat (split_loop false prev piece text))
         = visible piece ++ visible text).
Proof.
  induction text as [|c rest [IHgap IHtext]]; split.
  - reflexivity.
  - intros prev piece. simpl. now rewrite !app_nil_r.
  - intros prev. cbn [split_loop]. destruct (isspace c) eqn:Hc.
    + now rewrite IHgap, visible_cons_space.
    + now rewrite IHtext, <- visible_app.
  - intros prev piece. cbn [split_loop].
    destruct (isspace c) eqn:Hc; cbn [andb].
    + destruct (after_terminal prev).
      * cbn [concat]. now rewrite visible_app, IHgap, visible_cons_space.
      * now rewrite IHtext, <- !visible_app, <- app_assoc.
    + now rewrite IHtext, <- !visible_app, <- app_assoc.
Qed.

Lemma visible_sentences (pieces : list str) :
  visible (concat (map strip (filter (fun s => nonempty (strip s)) pieces)))
  = visible (concat pieces).
Proof.
  induction pieces as [|s pieces IH]; [reflexivity|].
  cbn [filter concat]. rewrite visible_app, <- (visible_strip s), <- IH.
  destruct (strip s) eqn:Hs; cbn [nonempty]; [reflexivity|].
  cbn [map concat]. now rewrite visible_app, Hs.
Qed.

Lemma visible_join (separator : str) (sentences : list str) :
  forallb isspace separator = true ->
  visible (join separator sentences) = visible (concat sentences).
Proof.
  intros Hsep. induction sentences as [|s rest IH]; [reflexivity|].
  cbn [join concat]. destruct rest as [|s' rest].
  - simpl. now rewrite app_nil_r.
  - rewrite !visible_app, IH, (visible_whitespace _ Hsep). reflexivity.
Qed.

Lemma visible_join_sentences (text separator : str) :
  forallb isspace separator = true ->
  visible (join_sentences text separator) = visible text.
Proof.
  intros Hsep. unfold join_sentences, re_split.
  rewrite (visible_join _ _ Hsep), visible_sentences.
  now rewrite (proj2 (visible_split_loop text)).
Qed.

End VisibleCharacters.

(** ** Line breaks through the joiner *)

Lemma no_breaks_sub_newlines (text : str) :
  forall in_block, no_breaks (sub_newlines in_block text) = true.
Proof.
  induction text as [|c rest IH]; intros in_block; [reflexivity|].
  cbn [sub_newlines]. destruct (c =? nl)%N eqn:Hc.
  - unfold no_breaks in *. rewrite forallb_app, IH.
    now destruct in_block.
  - unfold no_breaks in *. simpl. now rewrite Hc, IH.
Qed.

Lemma nth_error_shift (a b : str) (k : nat) :
  nth_error (a ++ b) (length a + k) = nth_error b k.
Proof.
  rewrite nth_error_app2 by lia. f_equal. lia.
Qed.

Lemma skipn_shift (a b : str) (p : nat) :
  skipn (length a + p) (a ++ b) = skipn p b.
Proof.
  rewrite skipn_app, skipn_all2 by lia. simpl. f_equal. lia.
Qed.

Lemma firstn_here (a b : str) : firstn (length a) (a ++ b) = a.
Proof.
  rewrite firstn_app, firstn_all, Nat.sub_diag. simpl. apply app_nil_r.
Qed.

Section BreaksThroughJoiner.

Context {T : CharTables}.

Lemma space_not_upper (c : char) : isspace c = true -> isupper c = false.
Proof.
  intros Hs. destruct (isupper c) eqn:Hu; [|reflexivity].
  rewrite (upper_not_space c Hu) in Hs. discriminate.
Qed.

Lemma whitespace_stops (ws : str) :
  forallb isspace ws = true -> starts_upper ws = false.
Proof.
  destruct ws as [|c ws]; [reflexivity|]. simpl.
  intros H. apply andb_true_iff in H as [Hc _]. now apply space_not_upper.
Qed.

Lemma breaks_before_upper_suffix (a b : str) :
  breaks_before_upper (a ++ b) = true -> breaks_before_upper b = true.
Proof.
  induction a as [|c a IH]; [auto|].
  simpl. intros H. apply andb_true_iff in H as [_ H]. auto.
Qed.

Lemma breaks_before_upper_prefix (a b : str) :
  breaks_before_upper (a ++ b) = true -> starts_upper b = false ->
  breaks_before_upper a = true.
Proof.
  intros H Hb. induction a as [|c a IH]; [reflexivity|].
  change ((c :: a) ++ b) with (c :: a ++ b) in H.
  cbn [breaks_before_upper] in *.
  apply andb_true_iff in H as [Hc H]. rewrite (IH H), andb_true_r.
  destruct (c =? nl)%N; [|reflexivity].
  destruct a as [|d a]; [|exact Hc].
  simpl in Hc. destruct b as [|d b]; [discriminate|].
  simpl in Hb. congruence.
Qed.

Lemma breaks_before_upper_scan (text : str) :
  no_breaks text = true ->
  forall in_run prev, breaks_before_upper (scan in_run prev text) = true.
Proof.
  induction text as [|c rest IH]; intros H in_run prev; [reflexivity|].
  unfold no_breaks in H. simpl in H. apply andb_true_iff in H as [Hc H].
  apply negb_true_iff in Hc.
  assert (Hstep : forall b,
             breaks_before_upper (c :: scan b (Some c) rest) = true)
    by (intros b; cbn [breaks_before_upper]; rewrite Hc; now apply IH).
  cbn [scan]. destruct (isupper c) eqn:Hu; [|apply Hstep].
  destruct in_run; [apply Hstep|].
  destruct (break_before_cases prev (length (upper_run (c :: rest))))
    as [-> | ->]; [apply Hstep|].
  change ([nl] ++ c :: scan true (Some c) rest)
    with (nl :: c :: scan true (Some c) rest).
  cbn [breaks_before_upper] in *. rewrite N.eqb_refl, Hu. apply Hstep.
Qed.

Lemma breaks_before_upper_split_loop (text : str) :
  forall in_match prev piece,
    breaks_before_upper (piece ++ text) = true ->
    (in_match = true -> piece = []) ->
    forallb breaks_before_upper (split_loop in_match prev piece text) = true.
Proof.
  induction text as [|c rest IH]; intros in_match prev piece H Hpiece.
  - simpl. rewrite app_nil_r in H. now rewrite H.
  - cbn [split_loop]. destruct in_match.
    + rewrite (Hpiece eq_refl) in H. simpl app in H.
      destruct (isspace c).
      * apply IH; [|reflexivity].
        apply (breaks_before_upper_suffix [c]). exact H.
      * apply IH; [exact H | discriminate].
    + destruct (isspace c) eqn:Hc; cbn [andb].
      * destruct (after_terminal prev).
        -- cbn [forallb]. apply andb_true_iff. split.
           ++ apply (breaks_before_upper_prefix piece (c :: rest) H).
              simpl. now apply space_not_upper.
           ++ apply IH; [|reflexivity].
              apply (breaks_before_upper_suffix (piece ++ [c])).
              now rewrite <- app_assoc.
        -- apply IH; [now rewrite <- app_assoc | discriminate].
      * apply IH; [now rewrite <- app_assoc | discriminate].
Qed.

Lemma breaks_before_upper_strip (s : str) :
  breaks_before_upper s = true -> breaks_before_upper (strip s) = true.
Proof.
  intros H. unfold strip.
  destruct (lstrip_split s) as (ws & Hs & _).
  destruct (rstrip_split (lstrip s)) as (ws' & Hs' & Hws').
  rewrite Hs in H. apply breaks_before_upper_suffix in H.
  rewrite Hs' in H.
  apply (breaks_before_upper_prefix _ _ H), whitespace_stops, Hws'.
Qed.

Lemma breaks_before_upper_sentences (pieces : list str) :
  forallb breaks_before_upper pieces = true ->
  forallb breaks_before_upper
    (map strip (filter (fun s => nonempty (strip s)) pieces)) = true.
Proof.
  induction pieces as [|s pieces IH]; intros H; [reflexivity|].
  cbn [forallb] in H. apply andb_true_iff in H as [Hs H].
  cbn [filter]. destruct (nonempty (strip s)); [|auto].
  cbn [map forallb]. now rewrite (breaks_before_upper_strip s Hs), IH.
Qed.

Lemma breaks_before_upper_at (s : str) :
  breaks_before_upper s = true ->
  forall k, nth_error s k = Some nl -> before_upper s k.
Proof.
  induction s as [|c s IH]; intros H k Hk; [now destruct k|].
  cbn [breaks_before_upper] in H. apply andb_true_iff in H as [Hc H].
  destruct k as [|k].
  - simpl in Hk. injection Hk as ->. rewrite N.eqb_refl in Hc.
    destruct s as [|d s]; [discriminate|]. now exists d.
  - apply (IH H k Hk).
Qed.

Lemma join_breaks_accounted (separator : str) (sentences : list str) :
  forallb breaks_before_upper sentences = true ->
  breaks_accounted separator (join separator sentences).
Proof.
  induction sentences as [|s rest IH]; intros H k Hk; [now destruct k|].
  cbn [forallb] in H. apply andb_true_iff in H as [Hs H].
  destruct rest as [|s' rest].
  - right. now apply breaks_before_upper_at.
  - specialize (IH H). cbn [join] in *.
    set (tail := join separator (s' :: rest)) in *.
    destruct (Nat.lt_ge_cases k (length s)) as [Hlt | Hge].
    { right. rewrite nth_error_app1 in Hk by exact Hlt.
      destruct (breaks_before_upper_at s Hs k Hk) as (c & Hc & Hu).
      exists c. split; [|exact Hu].
      rewrite nth_error_app1; [exact Hc|].
      apply nth_error_Some. congruence. }
    destruct (Nat.lt_ge_cases k (length s + length separator)) as [Hlt | Hge'].
    { left. exists (length s). split; [lia|].
      rewrite <- (Nat.add_0_r (length s)) at 1. rewrite skipn_shift.
      apply firstn_here. }
    rewrite app_assoc in Hk |- *.
    replace k with (length (s ++ separator) + (k - length (s ++ separator)))
      in Hk |- * by (rewrite length_app; lia).
    set (k' := k - length (s ++ separator)) in *.
    rewrite nth_error_shift in Hk.
    destruct (IH k' Hk) as [(p & Hp & Hocc) | (c & Hc & Hu)].
    + left. exists (length (s ++ separator) + p). split; [lia|].
      now rewrite skipn_shift.
    + right. exists c. split; [|exact Hu].
      now rewrite <- Nat.add_succ_r, nth_error_shift.
Qed.

Lemma join_sentences_breaks (text separator : str) :
  breaks_before_upper text = true ->
  breaks_accounted separator (join_sentences text separator).
Proof.
  intros H. apply join_breaks_accounted, breaks_before_upper_sentences.
  apply breaks_before_upper_split_loop; [exact H | discriminate].
Qed.

End BreaksThroughJoiner.

(** ** The ends of the joined text *)

Section TrimmedEnds.

Context {T : CharTables}.

Lemma strip_trimmed (s : str) : strip s <> [] -> trimmed (strip s).
Proof.
  intros Hne. unfold strip in *.
  destruct (rstrip_split (lstrip s)) as (ws & Hs & _).
  unfold rstrip in *.
  destruct (lstrip (rev (lstrip s))) as [|b u] eqn:Hu; [contradiction|].
  cbn [rev] in *. destruct (rev u ++ [b]) as [|a r] eqn:Hr;
    [contradiction|].
  exists a, b. repeat split.
  - rewrite <- Hr. apply last_char_snoc.
  - apply (lstrip_head s a (r ++ ws)). exact Hs.
  - apply (lstrip_head _ _ _ Hu).
Qed.

Lemma sentences_trimmed (pieces : list str) :
  Forall trimmed (map strip (filter (fun s => nonempty (strip s)) pieces)).
Proof.
  induction pieces as [|s pieces IH]; [constructor|].
  cbn [filter]. destruct (strip s) as [|c r] eqn:Hs; cbn [nonempty];
    [exact IH|].
  cbn [map]. constructor; [|exact IH].
  rewrite Hs, <- Hs. apply strip_trimmed. rewrite Hs. discriminate.
Qed.

Lemma join_trimmed (separator : str) (sentences : list str) :
  Forall trimmed sentences -> sentences <> [] ->
  trimmed (join separator sentences).
Proof.
  induction sentences as [|s rest IH]; intros H Hne; [contradiction|].
  inversion H as [|? ? Hs Hrest]; subst.
  destruct rest as [|s' rest]; [exact Hs|].
  assert (Htail : trimmed (join separator (s' :: rest)))
    by (apply IH; [exact Hrest | discriminate]).
  change (join separator (s :: s' :: rest))
    with (s ++ separator ++ join separator (s' :: rest)).
  remember (join separator (s' :: rest)) as tail eqn:Etail. clear Etail.
  destruct Hs as (a & b0 & Ha & _ & Hsa & _).
  destruct Htail as (a' & b & _ & Hb & _ & Hsb).
  exists a, b. repeat split; [| |exact Hsa|exact Hsb].
  - destruct s; [discriminate Ha | exact Ha].
  - rewrite app_assoc, last_char_app; [exact Hb|].
    intros E. rewrite E in Hb. discriminate Hb.
Qed.

Lemma join_sentences_trimmed (text separator : str) :
  join_sentences text separator = []
  \/ trimmed (join_sentences text separator).
Proof.
  unfold join_sentences.
  destruct (map strip (filter (fun s => nonempty (strip s)) (re_split text)))
    as [|s rest] eqn:Hl; [now left|].
  right. apply join_trimmed; [|discriminate].
  rewrite <- Hl. apply sentences_trimmed.
Qed.

End TrimmedEnds.

(** ** Where the candidates are cut *)

Lemma last_char_inv (s : str) (t : char) :
  last_char s = Some t -> exists x, s = x ++ [t].
Proof.
  intros H. destruct s as [|a s] using rev_ind; [discriminate|].
  rewrite last_char_snoc in H. injection H as ->. now exists s.
Qed.

Section CutPoints.

Context {T : CharTables}.

Lemma ends_with_gap_nil : ~ ends_with_gap [].
Proof.
  intros (x & t & ws & E & _). now destruct x.
Qed.

Lemma has_cut_point_nil : ~ has_cut_point [].
Proof.
  intros (x & t & ws & d & y & E & _). now destruct x.
Qed.

Lemma ends_with_gap_snoc (s : str) (c : char) :
  isspace c = true ->
  ends_with_gap s \/ after_terminal (last_char s) = true ->
  ends_with_gap (s ++ [c]).
Proof.
  intros Hc [(x & t & ws & -> & Ht & Hne & Hws) | Hlast].
  - exists x, t, (ws ++ [c]). repeat split.
    + now rewrite <- app_assoc.
    + exact Ht.
    + now destruct ws.
    + rewrite forallb_app, Hws. simpl. now rewrite Hc.
  - destruct (last_char s) as [t|] eqn:Hs; [|discriminate].
    destruct (last_char_inv s t Hs) as [x ->].
    exists x, t, [c]. repeat split.
    + now rewrite <- app_assoc.
    + exact Hlast.
    + discriminate.
    + simpl. now rewrite Hc.
Qed.

Lemma ends_with_gap_snoc_inv (s : str) (c : char) :
  ends_with_gap (s ++ [c]) ->
  isspace c = true
  /\ (ends_with_gap s \/ after_terminal (last_char s) = true).
Proof.
  intros (x & t & ws & E & Ht & Hne & Hws).
  destruct (exists_last Hne) as (ws' & c' & ->).
  change (x ++ t :: ws' ++ [c']) with (x ++ (t :: ws') ++ [c']) in E.
  rewrite app_assoc in E. apply app_inj_tail in E as [-> ->].
  rewrite forallb_app in Hws. apply andb_true_iff in Hws as [Hws Hc].
  simpl in Hc. rewrite andb_true_r in Hc. split; [exact Hc|].
  destruct ws' as [|w ws'].
  - right. now rewrite last_char_snoc.
  - left. exists x, t, (w :: ws'). repeat split; [exact Ht | discriminate | exact Hws].
Qed.

Lemma has_cut_point_snoc_inv (s : str) (c : char) :
  has_cut_point (s ++ [c]) ->
  has_cut_point s \/ (ends_with_gap s /\ isspace c = false).
Proof.
  intros (x & t & ws & d & y & E & Ht & Hne & Hws & Hd).
  destruct y as [|e y] using rev_ind.
  - right.
    change (x ++ t :: ws ++ [d]) with (x ++ (t :: ws) ++ [d]) in E.
    rewrite app_assoc in E. apply app_inj_tail in E as [-> ->].
    split; [|exact Hd]. now exists x, t, ws.
  - left. clear IHy.
    change (x ++ t :: ws ++ d :: y ++ [e])
      with (x ++ (t :: ws) ++ (d :: y) ++ [e]) in E.
    rewrite !app_assoc in E. apply app_inj_tail in E as [-> ->].
    exists x, t, ws, d, y. repeat split; try assumption.
    now rewrite <- !app_assoc.
Qed.

Lemma cut_loop_cuts (text : str) :
  forall in_gap prev candidate,
    prev = last_char candidate ->
    (in_gap = true <-> ends_with_gap candidate) ->
    ~ has_cut_point candidate ->
    (exists e rest, cut_loop in_gap prev candidate text = (candidate ++ e) :: rest)
    /\ cut_at_gaps (cut_loop in_gap prev candidate text)
    /\ Forall (fun s => ~ has_cut_point s)
         (cut_loop in_gap prev candidate text).
Proof.
  induction text as [|c text IH]; intros in_gap prev candidate Hprev Hgap Hfree.
  - cbn [cut_loop]. repeat split.
    + exists [], []. now rewrite app_nil_r.
    + now constructor.
  - cbn [cut_loop]. destruct (isspace c) eqn:Hc.
    + destruct (IH (in_gap || after_terminal prev) (Some c) (candidate ++ [c]))
        as ((e & rest & Hhead) & Hcuts & Hall).
      * now rewrite last_char_snoc.
      * rewrite orb_true_iff, Hprev. split.
        -- intros [Hg | Hl]; apply ends_with_gap_snoc; auto.
           left. now apply Hgap.
        -- intros H. apply ends_with_gap_snoc_inv in H as [_ [H | H]];
             [left; now apply Hgap | now right].
      * intros H. apply has_cut_point_snoc_inv in H as [H | [_ H]];
          [contradiction | congruence].
      * repeat split; [|exact Hcuts|exact Hall].
        exists (c :: e), rest. now rewrite Hhead, <- app_assoc.
    + destruct in_gap.
      * destruct (IH false (Some c) [c]) as ((e & rest & Hhead) & Hcuts & Hall).
        -- reflexivity.
        -- split; [discriminate|]. intros H.
           apply (ends_with_gap_snoc_inv []) in H as [H _]. congruence.
        -- intros H. apply (has_cut_point_snoc_inv []) in H as [H | [H _]].
           ++ now apply has_cut_point_nil.
           ++ now apply ends_with_gap_nil.
        -- repeat split.
           ++ exists [], (cut_loop false (Some c) [c] text).
              now rewrite app_nil_r.
           ++ rewrite Hhead in Hcuts |- *. cbn [cut_at_gaps].
              repeat split; [now apply Hgap | now exists c, e | exact Hcuts].
           ++ now constructor.
      * destruct (IH false (Some c) (candidate ++ [c]))
          as ((e & rest & Hhead) & Hcuts & Hall).
        -- now rewrite last_char_snoc.
        -- split; [discriminate|]. intros H.
           apply ends_with_gap_snoc_inv in H as [H _]. congruence.
        -- intros H. apply has_cut_point_snoc_inv in H as [H | [H _]];
             [contradiction|].
           apply Hgap in H. discriminate.
        -- repeat split; [|exact Hcuts|exact Hall].
           exists (c :: e), rest. now rewrite Hhead, <- app_assoc.
Qed.

Lemma candidates_cuts (text : str) :
  cut_at_gaps (candidates text)
  /\ Forall (fun s => ~ has_cut_point s) (candidates text).
Proof.
  destruct (cut_loop_cuts text false None []) as (_ & Hcuts & Hall).
  - reflexivity.
  - split; [discriminate|]. intros H. now apply ends_with_gap_nil in H.
  - apply has_cut_point_nil.
  - now split.
Qed.

End CutPoints.

(** ** Visible characters of the joined text, for any separator *)

Section VisibleJoin.

Context {T : CharTables}.

Lemma visible_join_parts (separator : str) (sentences : list str) :
  visible (join separator sentences)
  = join (visible separator) (map visible sentences).
Proof.
  induction sentences as [|s rest IH]; [reflexivity|].
  destruct rest as [|s' rest]; [reflexivity|].
  change (join separator (s :: s' :: rest))
    with (s ++ separator ++ join separator (s' :: rest)).
  rewrite !visible_app, IH. reflexivity.
Qed.

Lemma visible_concat (sentences : list str) :
  concat (map visible sentences) = visible (concat sentences).
Proof.
  induction sentences as [|s rest IH]; [reflexivity|].
  simpl. now rewrite visible_app, IH.
Qed.

End VisibleJoin.

(** ** The segmenter: statements *)

Section SegmenterStatements.

Context {T : CharTables}.

(** C2.  An uppercase block that starts after a character outside the
    forbidden set gets a line break immediately before it exactly when it
    has at most two letters, and is copied as it stands in both cases:
    the output is the output for the text before the block, the break or
    nothing, the block, and the output for the text after it.  The
    segmenter maps [wordXy] to [word], a line break, [Xy], and leaves
    [worldWAR] as it is. *)
Theorem short_run_gets_break :
  (forall (pre run post : str) (p : char),
      maximal_run pre run post ->
      last_char pre = Some p ->
      in_forbidden p = false ->
      heuristic_insert_linebreaks (pre ++ run ++ post)
      = Done (segment pre
              ++ (if length run <=? 2 then [nl] else [])
              ++ run ++ segment_from (last_char run) post))
  /\ heuristic_insert_linebreaks (of_string "wordXy")
     = Done (of_string "word" ++ nl :: of_string "Xy")
  /\ heuristic_insert_linebreaks (of_string "worldWAR")
     = Done (of_string "worldWAR").
Proof.
  split; [|split].
  - intros pre run post p Hrun Hp Hforbidden.
    rewrite heuristic_insert_linebreaks_segment, (segment_at_run _ _ _ Hrun).
    unfold break_before. now rewrite Hp, Hforbidden.
  - now rewrite heuristic_insert_linebreaks_tables.
  - now rewrite heuristic_insert_linebreaks_tables.
Qed.

(** C3.  An uppercase block that starts at position 0, or after a
    character of the forbidden set (the double quote, [(], [[], [{], [/],
    [-], [,], [.], [:], [;] and the space), is copied as it stands with no
    line break before it; the segmenter leaves [(A) test] as it is; and
    the output always begins with the first character of the input, never
    with an inserted break. *)
Theorem run_in_start_or_forbidden_context_copied :
  (forall (pre run post : str),
      maximal_run pre run post ->
      start_or_forbidden (last_char pre) = true ->
      heuristic_insert_linebreaks (pre ++ run ++ post)
      = Done (segment pre ++ run ++ segment_from (last_char run) post))
  /\ forbidden = [34; 40; 91; 123; 47; 45; 44; 46; 58; 59; 32]%N
  /\ heuristic_insert_linebreaks (of_string "(A) test")
     = Done (of_string "(A) test")
  /\ (forall text : str,
         exists out, heuristic_insert_linebreaks text = Done out
                     /\ hd_error out = hd_error text).
Proof.
  split; [|split; [|split]].
  - intros pre run post Hrun Hctx.
    rewrite heuristic_insert_linebreaks_segment, (segment_at_run _ _ _ Hrun).
    unfold break_before, start_or_forbidden in *.
    destruct (last_char pre) as [p|]; [now rewrite Hctx | reflexivity].
  - reflexivity.
  - now rewrite heuristic_insert_linebreaks_tables.
  - intros text. exists (segment text).
    split; [apply heuristic_insert_linebreaks_segment | apply segment_head].
Qed.

(** C6.  The characters of the segmenter's output that are not whitespace
    are, as a multiset, those of its input. *)
Theorem segment_preserves_visible_multiset (s : str) :
  exists out, heuristic_insert_linebreaks s = Done out
              /\ Permutation (visible out) (visible s).
Proof.
  exists (segment s). split; [apply heuristic_insert_linebreaks_segment|].
  unfold segment, segment_from. now rewrite visible_scan.
Qed.

(** C7.  On a string without uppercase letters the segmenter is the
    identity. *)
Theorem segment_identity_without_uppercase (s : str) :
  forallb (fun c => negb (isupper c)) s = true ->
  heuristic_insert_linebreaks s = Done s.
Proof.
  intros H. rewrite heuristic_insert_linebreaks_segment.
  unfold segment, segment_from. now rewrite scan_no_upper.
Qed.

(** C9.  On a string without line breaks, deleting the line breaks of the
    segmenter's output gives the input back: every input character is
    emitted unchanged and in order, and only line breaks are added. *)
Theorem segment_without_breaks_is_input (s : str) :
  no_breaks s = true ->
  exists out, heuristic_insert_linebreaks s = Done out
              /\ without_breaks out = s.
Proof.
  intros H. exists (segment s).
  split; [apply heuristic_insert_linebreaks_segment|].
  unfold segment, segment_from.
  now rewrite without_breaks_scan, without_breaks_id.
Qed.

End SegmenterStatements.

(** ** [restore_separators]: statements *)

Section RestoreStatements.

Context {T : CharTables}.

Lemma restore_separators_run (text separator : str) :
  restore_separators text separator
  = Done (join_sentences (segment (sub_newlines false text)) separator).
Proof.
  unfold restore_separators.
  now rewrite heuristic_insert_linebreaks_segment.
Qed.

Lemma restore_separators_wordXy :
  restore_separators (of_string "wordXy") [space]
  = Done (of_string "word" ++ nl :: of_string "Xy").
Proof.
  now rewrite restore_separators_tables.
Qed.

Lemma restore_separators_bar :
  restore_separators (of_string "Foo. Bar") (of_string "|")
  = Done (of_string "Foo.|Bar").
Proof.
  now rewrite restore_separators_tables.
Qed.

(** C1, as the code has it.  Every line break of the output of
    [restore_separators] lies inside an occurrence of the separator or
    stands immediately before an uppercase letter, where the segmenter
    inserted it. *)
Theorem restore_separators_breaks_accounted (text separator : str) :
  exists out, restore_separators text separator = Done out
              /\ breaks_accounted separator out.
Proof.
  eexists. split; [apply restore_separators_run|].
  apply join_sentences_breaks. unfold segment, segment_from.
  apply breaks_before_upper_scan, no_breaks_sub_newlines.
Qed.

(** C4, as the code has it.  The output is the sentences of the joiner,
    the trimmed pieces of the segmented text that are not empty, with the
    separator between consecutive ones.  Every sentence has a character
    that is not whitespace, and these characters, sentence after sentence,
    are those of the input, unchanged and in order.  So the characters of
    the output that are not whitespace are those of the input with those
    of the separator put between consecutive sentences; for a separator
    made of whitespace only they are exactly those of the input. *)
Theorem restore_separators_visible (text separator : str) :
  exists segmented out,
    heuristic_insert_linebreaks (sub_newlines false text) = Done segmented
    /\ restore_separators text separator = Done out
    /\ out = join separator (sentences_of segmented)
    /\ Forall (fun s => visible s <> []) (sentences_of segmented)
    /\ concat (map visible (sentences_of segmented)) = visible text
    /\ visible out
       = join (visible separator) (map visible (sentences_of segmented))
    /\ (forallb isspace separator = true -> visible out = visible text).
Proof.
  exists (segment (sub_newlines false text)).
  exists (join_sentences (segment (sub_newlines false text)) separator).
  assert (Hin : visible (segment (sub_newlines false text)) = visible text)
    by (unfold segment, segment_from;
        now rewrite visible_scan, visible_sub_newlines).
  split; [apply heuristic_insert_linebreaks_segment|].
  split; [apply restore_separators_run|].
  split; [reflexivity|].
  split; [|split; [|split]].
  - unfold sentences_of.
    apply (Forall_impl _ (P := trimmed)); [|apply sentences_trimmed].
    intros s (a & b & Ha & _ & Hsa & _).
    destruct s as [|c s]; [discriminate Ha|].
    injection Ha as ->. unfold visible. simpl. rewrite Hsa. discriminate.
  - unfold sentences_of, re_split.
    rewrite visible_concat, visible_sentences.
    now rewrite (proj2 (visible_split_loop _)).
  - apply visible_join_parts.
  - intros Hsep. now rewrite visible_join_sentences.
Qed.


(** C8.  The segmenter and [restore_separators] return on every string:
    no subscript is out of range, and the loops stop within
    [len(text) + 2] turns (and so with any larger bound).
    [restore_separators] maps the empty string to the empty string,
    whatever the separator. *)
Theorem segmenter_and_restore_total :
  (forall text : str, exists out, heuristic_insert_linebreaks text = Done out)
  /\ (forall (text : str) (fuel : nat),
         length text + 2 <= fuel ->
         scan_loop fuel text 0 [] = heuristic_insert_linebreaks text)
  /\ (forall text separator : str,
         exists out, restore_separators text separator = Done out)
  /\ (forall separator : str, restore_separators [] separator = Done []).
Proof.
  split; [|split; [|split]].
  - intros text. eexists. apply heuristic_insert_linebreaks_segment.
  - intros text fuel Hfuel. rewrite heuristic_insert_linebreaks_segment.
    apply (scan_loop_run fuel text [] [] Hfuel).
  - intros text separator. eexists. apply restore_separators_run.
  - intros separator. reflexivity.
Qed.

(** C10.  The output of [restore_separators] is empty, or it begins and
    ends with a character that is not whitespace. *)
Theorem restore_separators_trimmed (text separator : str) :
  exists out, restore_separators text separator = Done out
              /\ (out = [] \/ trimmed out).
Proof.
  eexists. split; [apply restore_separators_run|].
  apply join_sentences_trimmed.
Qed.

End RestoreStatements.

(** ** The statements at concrete inputs *)

Example short_run_gets_break_witness :
  @heuristic_insert_linebreaks ascii_tables
    (of_string "word" ++ of_string "X" ++ of_string "y")
  = Done (@segment ascii_tables (of_string "word")
          ++ [nl] ++ of_string "X"
          ++ @segment_from ascii_tables (Some 88%N) (of_string "y")).
Proof.
  apply (proj1 (@short_run_gets_break ascii_tables)
           (of_string "word") (of_string "X") (of_string "y") 100%N).
  - repeat split.
  - reflexivity.
  - reflexivity.
Defined.

Example run_in_start_or_forbidden_context_copied_witness :
  @heuristic_insert_linebreaks ascii_tables
    (of_string "(" ++ of_string "A" ++ of_string ") test")
  = Done (@segment ascii_tables (of_string "(")
          ++ of_string "A"
          ++ @segment_from ascii_tables (Some 65%N) (of_string ") test")).
Proof.
  apply (proj1 (@run_in_start_or_forbidden_context_copied ascii_tables)
           (of_string "(") (of_string "A") (of_string ") test")).
  - repeat split.
  - reflexivity.
Defined.

Example segment_identity_without_uppercase_witness :
  @heuristic_insert_linebreaks ascii_tables (of_string "no capitals, here.")
  = Done (of_string "no capitals, here.").
Proof.
  apply (@segment_identity_without_uppercase ascii_tables). reflexivity.
Defined.

Example segment_without_breaks_is_input_witness :
  exists out,
    @heuristic_insert_linebreaks ascii_tables (of_string "wordXy") = Done out
    /\ without_breaks out = of_string "wordXy".
Proof.
  apply (@segment_without_breaks_is_input ascii_tables). reflexivity.
Defined.

Example restore_separators_visible_witness :
  exists out,
    @restore_separators ascii_tables (of_string "Foo. Bar") [nl] = Done out
    /\ @visible ascii_tables out = @visible ascii_tables (of_string "Foo. Bar").
Proof.
  destruct (@restore_separators_visible ascii_tables (of_string "Foo. Bar") [nl])
    as (segmented & out & _ & Hout & _ & _ & _ & _ & Hvisible).
  exists out. split; [exact Hout | apply Hvisible; reflexivity].
Defined.

Example segmenter_and_restore_total_witness :
  @scan_loop ascii_tables 9 (of_string "wordXy") 0 []
  = @heuristic_insert_linebreaks ascii_tables (of_string "wordXy").
Proof.
  apply (proj1 (proj2 (@segmenter_and_restore_total ascii_tables))).
  simpl. lia.
Defined.

(** C1 as stated fails: with a space as separator, the line break the
    segmenter puts before [X] in [wordXy] stays in the output, where no
    separator covers it.  The output is the same for all tables
    ([restore_separators_wordXy]). *)
Example restore_separators_keeps_inserted_break :
  exists out,
    @restore_separators ascii_tables (of_string "wordXy") [space] = Done out
    /\ nth_error out 4 = Some nl
    /\ ~ breaks_from_separator [space] out.
Proof.
  exists (of_string "word" ++ nl :: of_string "Xy").
  split; [reflexivity|]. split; [reflexivity|].
  intros H. destruct (H 4 eq_refl) as (p & Hp & Hocc).
  simpl in Hp. assert (p = 4) by lia. subst p. discriminate Hocc.
Qed.

(** C4 as stated fails: a separator that is not whitespace adds its own
    characters to the visible ones.  The output is the same for all tables
    ([restore_separators_bar]). *)
Example restore_separators_adds_separator_characters :
  exists out,
    @restore_separators ascii_tables (of_string "Foo. Bar") (of_string "|")
    = Done out
    /\ out = of_string "Foo.|Bar"
    /\ ~ Permutation (@visible ascii_tables out)
           (@visible ascii_tables (of_string "Foo. Bar")).
Proof.
  exists (of_string "Foo.|Bar").
  split; [reflexivity|]. split; [reflexivity|].
  intros H. apply Permutation_length in H. discriminate H.
Qed.

(** ** Further properties of the segmenter *)

Section SegmenterMore.

Context {T : CharTables}.

Lemma forbidden_not_upper (c : char) :
  in_forbidden c = true -> isupper c = false.
Proof.
  unfold in_forbidden. intros H. apply existsb_exists in H as (d & Hd & E).
  apply N.eqb_eq in E. subst d.
  repeat (destruct Hd as [<- | Hd]; [now rewrite isupper_ascii|]).
  destruct Hd.
Qed.

Lemma scan_all_upper (text : str) :
  forall prev, forallb isupper text = true -> scan true prev text = text.
Proof.
  induction text as [|c rest IH]; intros prev H; [reflexivity|].
  simpl in H. apply andb_true_iff in H as [Hc H].
  cbn [scan]. now rewrite Hc, IH.
Qed.

Lemma upper_run_snoc (text : str) (f : char) :
  isupper f = false -> upper_run (text ++ [f]) = upper_run text.
Proof.
  intros Hf. induction text as [|c rest IH]; simpl; [now rewrite Hf|].
  now rewrite IH.
Qed.

Lemma scan_snoc (text : str) (f : char) :
  isupper f = false ->
  forall in_run prev,
    scan in_run prev (text ++ [f]) = scan in_run prev text ++ [f].
Proof.
  intros Hf. induction text as [|c rest IH]; intros in_run prev.
  - simpl. now rewrite Hf.
  - pose proof (upper_run_snoc (c :: rest) f Hf) as Hrun.
    change ((c :: rest) ++ [f]) with (c :: rest ++ [f]) in *.
    cbn [scan]. rewrite Hrun, !IH.
    destruct (isupper c); [|reflexivity].
    now rewrite <- app_assoc.
Qed.

Lemma segment_from_forbidden (f : char) (text : str) :
  in_forbidden f = true -> segment_from (Some f) text = segment text.
Proof.
  intros Hf. unfold segment, segment_from.
  destruct text as [|c rest]; [reflexivity|].
  cbn [scan break_before]. now rewrite Hf.
Qed.

Lemma scan_length_lower (text : str) :
  forall in_run prev, length text <= length (scan in_run prev text).
Proof.
  induction text as [|c rest IH]; intros in_run prev; [simpl; lia|].
  cbn [scan]. destruct (isupper c).
  - rewrite length_app. simpl. specialize (IH true (Some c)). lia.
  - simpl. specialize (IH false (Some c)). lia.
Qed.

Lemma scan_length_upper (text : str) :
  forall in_run prev,
    2 * length (scan in_run prev text)
    <= 3 * length text + (if in_run then 0 else 1).
Proof.
  induction text as [|c rest IH]; intros in_run prev;
    [simpl; destruct in_run; lia|].
  cbn [scan]. destruct (isupper c).
  - rewrite length_app. specialize (IH true (Some c)).
    cbn [length] in *. destruct in_run; [simpl; lia|].
    destruct (break_before_cases prev (length (upper_run (c :: rest))))
      as [-> | ->]; simpl; lia.
  - specialize (IH false (Some c)). cbn [length] in *.
    destruct in_run; lia.
Qed.

(** X1.  A string made of uppercase letters only is returned as it is: the
    block starts at position 0, so it is copied without a break, whatever
    its length. *)
Theorem segment_identity_on_uppercase (s : str) :
  forallb isupper s = true -> heuristic_insert_linebreaks s = Done s.
Proof.
  intros H. rewrite heuristic_insert_linebreaks_segment.
  unfold segment, segment_from. destruct s as [|c rest]; [reflexivity|].
  simpl in H. apply andb_true_iff in H as [Hc H].
  cbn [scan break_before]. now rewrite Hc, scan_all_upper.
Qed.

(** X2.  The segmenter works on each side of a forbidden character on its
    own: the output for [a], the character, then the output for [b], as
    if [b] were a text of its own. *)
Theorem segment_splits_at_forbidden (a b : str) (f : char) :
  in_forbidden f = true ->
  heuristic_insert_linebreaks (a ++ f :: b)
  = Done (segment a ++ f :: segment b).
Proof.
  intros Hf. pose proof (forbidden_not_upper f Hf) as Hlow.
  rewrite heuristic_insert_linebreaks_segment.
  unfold segment at 1, segment_from at 1.
  rewrite snoc_assoc, scan_prefix.
  - rewrite last_char_snoc, (segment_from_forbidden f b Hf).
    rewrite (scan_snoc a f Hlow). now rewrite <- app_assoc.
  - now destruct a.
  - intros q Hq. rewrite last_char_snoc in Hq. now injection Hq as <-.
Qed.

(** X3.  The output holds every input character and at most one inserted
    break for every two of them: its length lies between [len(text)] and
    one and a half times [len(text)]. *)
Theorem segment_length_bounds (text : str) :
  exists out,
    heuristic_insert_linebreaks text = Done out
    /\ length text <= length out
    /\ 2 * length out <= 3 * length text.
Proof.
  exists (segment text).
  split; [apply heuristic_insert_linebreaks_segment|].
  split; [apply scan_length_lower|].
  unfold segment, segment_from. destruct text as [|c rest]; [simpl; lia|].
  cbn [scan break_before]. destruct (isupper c).
  - pose proof (scan_length_upper rest true (Some c)). simpl in *. lia.
  - pose proof (scan_length_upper rest false (Some c)). simpl in *. lia.
Qed.

(** X4.  On a text without line breaks, every line break of the output
    stands immediately before an uppercase letter; so the output never
    ends with a break and never has two breaks in a row. *)
Theorem segment_breaks_before_upper (s : str) :
  no_breaks s = true ->
  exists out,
    heuristic_insert_linebreaks s = Done out
    /\ forall k, nth_error out k = Some nl -> before_upper out k.
Proof.
  intros H. exists (segment s).
  split; [apply heuristic_insert_linebreaks_segment|].
  apply breaks_before_upper_at. unfold segment, segment_from.
  now apply breaks_before_upper_scan.
Qed.

End SegmenterMore.

(** ** Further properties of [restore_separators] *)

Section RestoreMore.

Context {T : CharTables}.

Lemma visible_nil (s : str) :
  visible s = [] <-> forallb isspace s = true.
Proof.
  split; [|apply visible_whitespace].
  induction s as [|c s IH]; [reflexivity|].
  unfold visible in *. simpl. destruct (isspace c); [exact IH | discriminate].
Qed.

Lemma trimmed_visible (s : str) : trimmed s -> visible s <> [].
Proof.
  intros (a & b & Ha & _ & Hsa & _). destruct s as [|c s]; [discriminate|].
  injection Ha as ->. unfold visible. simpl. rewrite Hsa. discriminate.
Qed.

Lemma strip_nil_visible (s : str) : strip s = [] <-> visible s = [].
Proof.
  rewrite <- (visible_strip s). split; [now intros ->|].
  intros H. destruct (strip s) as [|c r] eqn:Hs; [reflexivity|].
  exfalso. apply (trimmed_visible (strip s)); [|now rewrite Hs].
  apply strip_trimmed. rewrite Hs. discriminate.
Qed.

Lemma join_nil (separator : str) (sentences : list str) :
  Forall trimmed sentences ->
  join separator sentences = [] -> sentences = [].
Proof.
  intros H E. destruct sentences as [|s rest]; [reflexivity|].
  inversion H as [|? ? (a & _ & Ha & _) _]; subst.
  destruct s as [|c s]; [discriminate|].
  destruct rest; discriminate.
Qed.

Lemma join_sentences_nil (text separator : str) :
  join_sentences text separator = [] <-> visible text = [].
Proof.
  unfold join_sentences.
  set (sentences :=
         map strip (filter (fun s => nonempty (strip s)) (re_split text))).
  assert (Hvis : visible (concat sentences) = visible text)
    by (unfold sentences, re_split;
        now rewrite visible_sentences, (proj2 (visible_split_loop text))).
  assert (Htrim : Forall trimmed sentences) by apply sentences_trimmed.
  split.
  - intros E. apply (join_nil _ _ Htrim) in E.
    now rewrite <- Hvis, E.
  - intros E. rewrite <- Hvis in E.
    destruct sentences as [|s rest]; [reflexivity|].
    inversion Htrim as [|? ? Hs _]; subst.
    apply trimmed_visible in Hs. cbn [concat] in E.
    rewrite visible_app in E. now apply app_eq_nil in E as [E _].
Qed.

Lemma visible_normalised (text : str) :
  visible (segment (sub_newlines false text)) = visible text.
Proof.
  unfold segment, segment_from.
  now rewrite visible_scan, visible_sub_newlines.
Qed.

(** X5.  The result is the empty string exactly when the text has no
    character other than whitespace, whatever the separator. *)
Theorem restore_separators_empty_iff (text separator : str) :
  restore_separators text separator = Done []
  <-> forallb isspace text = true.
Proof.
  rewrite restore_separators_run, <- visible_nil, <- visible_normalised.
  rewrite <- (join_sentences_nil _ separator).
  split; [now intros [= ->] | now intros ->].
Qed.

Lemma join_breaks_visible (sentences : list str) :
  Forall trimmed sentences ->
  forallb breaks_before_upper sentences = true ->
  forall k, nth_error (join [nl] sentences) k = Some nl ->
            break_before_visible (join [nl] sentences) k.
Proof.
  induction sentences as [|s rest IH]; intros Htrim H k Hk; [now destruct k|].
  cbn [forallb] in H. apply andb_true_iff in H as [Hs H].
  inversion Htrim as [|? ? _ Hrest]; subst.
  assert (Hin : forall j, nth_error s j = Some nl ->
                          exists c, nth_error s (S j) = Some c
                                    /\ isspace c = false).
  { intros j Hj. destruct (breaks_before_upper_at s Hs j Hj) as (c & Hc & Hu).
    exists c. split; [exact Hc | now apply upper_not_space]. }
  destruct rest as [|s' rest]; [now apply Hin|].
  assert (Htail : trimmed (join [nl] (s' :: rest)))
    by (apply join_trimmed; [exact Hrest | discriminate]).
  specialize (IH Hrest H).
  change (join [nl] (s :: s' :: rest))
    with (s ++ [nl] ++ join [nl] (s' :: rest)) in *.
  remember (join [nl] (s' :: rest)) as tail eqn:Etail. clear Etail.
  destruct (Nat.lt_ge_cases k (length s)) as [Hlt | Hge].
  { rewrite nth_error_app1 in Hk by exact Hlt.
    destruct (Hin k Hk) as (c & Hc & Hsp).
    exists c. split; [|exact Hsp].
    rewrite nth_error_app1; [exact Hc|].
    apply nth_error_Some. congruence. }
  rewrite app_assoc in Hk |- *.
  assert (Hlen : length (s ++ [nl]) = S (length s)) by apply length_snoc.
  destruct (Nat.eq_dec k (length s)) as [-> | Hne].
  { destruct Htail as (a & _ & Ha & _ & Hsa & _).
    exists a. split; [|exact Hsa].
    rewrite <- Hlen, <- (Nat.add_0_r (length (s ++ [nl]))), nth_error_shift.
    destruct tail; [discriminate | exact Ha]. }
  replace k with (length (s ++ [nl]) + (k - length (s ++ [nl])))
    in Hk |- * by lia.
  rewrite nth_error_shift in Hk.
  destruct (IH _ Hk) as (c & Hc & Hsp).
  exists c. split; [|exact Hsp].
  now rewrite <- Nat.add_succ_r, nth_error_shift.
Qed.


End RestoreMore.

(** ** The converter *)

Lemma split_once_parts (sep : char) (s : str) :
  split_once sep s
  = if contains sep s then [before_first sep s; after_first sep s] else [s].
Proof.
  induction s as [|c rest IH]; [reflexivity|].
  unfold contains in *. cbn [split_once before_first after_first existsb].
  rewrite (N.eqb_sym sep c). destruct (c =? sep)%N; [reflexivity|].
  cbn [orb]. rewrite IH. now destruct (existsb (N.eqb sep) rest).
Qed.

Lemma before_after_first (sep : char) (s : str) :
  contains sep s = true ->
  s = before_first sep s ++ sep :: after_first sep s.
Proof.
  unfold contains. induction s as [|c rest IH]; [discriminate|].
  cbn [before_first after_first existsb]. rewrite (N.eqb_sym sep c).
  destruct (c =? sep)%N eqn:Hc.
  - apply N.eqb_eq in Hc. now subst c.
  - cbn [orb]. intros H. simpl. now rewrite <- IH.
Qed.

Lemma before_first_free (sep : char) (s : str) :
  contains sep (before_first sep s) = false.
Proof.
  unfold contains. induction s as [|c rest IH]; [reflexivity|].
  cbn [before_first]. destruct (c =? sep)%N eqn:Hc; [reflexivity|].
  cbn [existsb]. now rewrite (N.eqb_sym sep c), Hc, IH.
Qed.

Lemma contains_app (c : char) (a b : str) :
  contains c (a ++ b) = contains c a || contains c b.
Proof.
  apply existsb_app.
Qed.

Section ConverterFacts.

Context {T : CharTables}.

Lemma isspace_tab : isspace tab = true.
Proof.
  now rewrite isspace_ascii.
Qed.

Lemma strip_inside (s : str) : exists l r, s = l ++ strip s ++ r.
Proof.
  destruct (lstrip_split s) as (l & Hl & _).
  destruct (rstrip_split (lstrip s)) as (r & Hr & _).
  exists l, r. unfold strip. now rewrite <- Hr.
Qed.

Lemma strip_free (c : char) (s : str) :
  contains c s = false -> contains c (strip s) = false.
Proof.
  destruct (strip_inside s) as (l & r & Hs). intros H.
  rewrite Hs, !contains_app in H.
  apply orb_false_iff in H as [_ H]. now apply orb_false_iff in H as [H _].
Qed.

Lemma strip_ends_visible (s : str) (b : char) :
  last_char s = Some b -> isspace b = false -> nonempty (strip s) = true.
Proof.
  intros Hb Hsb. destruct (last_char_inv s b Hb) as [x ->].
  destruct (strip (x ++ [b])) as [|c r] eqn:Hs; [|reflexivity].
  apply strip_nil_visible in Hs. rewrite visible_app in Hs.
  apply app_eq_nil in Hs as [_ Hs]. unfold visible in Hs. simpl in Hs.
  rewrite Hsb in Hs. discriminate.
Qed.

Lemma strip_starts_visible (s : str) (a : char) (rest : str) :
  s = a :: rest -> isspace a = false -> nonempty (strip s) = true.
Proof.
  intros -> Ha. destruct (strip (a :: rest)) as [|c r] eqn:Hs; [|reflexivity].
  apply strip_nil_visible in Hs. unfold visible in Hs. simpl in Hs.
  rewrite Ha in Hs. discriminate.
Qed.

(** A line that is not skipped is a trimmed text. *)
Lemma kept_line_trimmed (raw : str) :
  skip_line (strip raw) = false -> trimmed (strip raw).
Proof.
  unfold skip_line. intros H.
  apply orb_false_iff in H as [H _]. apply orb_false_iff in H as [H _].
  apply negb_false_iff in H. apply strip_trimmed.
  now destruct (strip raw).
Qed.

(** The text after the first tab of a trimmed line has a visible
    character: the line ends with one, and it is not the tab. *)
Lemma answer_part_visible (line : str) :
  trimmed line -> contains tab line = true ->
  nonempty (strip (after_first tab line)) = true.
Proof.
  intros (a & b & _ & Hb & _ & Hsb) Htab.
  rewrite (before_after_first tab line Htab) in Hb.
  destruct (after_first tab line) as [|c after] eqn:Hafter.
  - rewrite last_char_snoc in Hb. injection Hb as <-.
    rewrite isspace_tab in Hsb. discriminate.
  - apply (strip_ends_visible _ b); [|exact Hsb].
    rewrite <- Hb. symmetry.
    rewrite (snoc_assoc _ (c :: after) tab).
    apply last_char_app. discriminate.
Qed.

(** The text before the first tab of a trimmed line has a visible
    character: the line starts with one, and it is not the tab. *)
Lemma question_part_visible (line : str) :
  trimmed line -> nonempty (strip (before_first tab line)) = true.
Proof.
  intros (a & b & Ha & _ & Hsa & _).
  destruct line as [|c rest]; [discriminate|]. injection Ha as ->.
  cbn [before_first]. destruct (a =? tab)%N eqn:E.
  - apply N.eqb_eq in E. subst a. rewrite isspace_tab in Hsa. discriminate.
  - now apply (strip_starts_visible _ a (before_first tab rest)).
Qed.

Lemma enumerate_cons (n : nat) (line : str) (lines : list str) :
  enumerate n (line :: lines) = (n, line) :: enumerate (S n) lines.
Proof.
  reflexivity.
Qed.

(** The loop is a pass over the numbered lines: the branch for a missing
    answer is never taken, and no subscript is out of range. *)
Lemma read_cards_run (lines : list str) :
  forall line_number acc,
    read_cards line_number lines acc
    = Done {| valid_cards :=
                valid_cards acc ++ map card_of (filter accepted lines);
              error_cards :=
                error_cards acc ++ map strip (filter rejected lines);
              stderr :=
                stderr acc
                ++ map (fun p => NoTabSeparator (fst p) (strip (snd p)))
                     (filter (fun p => rejected (snd p))
                        (enumerate line_number lines)) |}.
Proof.
  induction lines as [|raw lines IH]; intros line_number acc.
  - simpl. rewrite !app_nil_r. now destruct acc.
  - rewrite enumerate_cons. cbn [read_cards filter snd fst].
    destruct (skip_line (strip raw)) eqn:Hskip.
    + assert (Ha : accepted raw = false)
        by (unfold accepted, skipped; now rewrite Hskip).
      assert (Hr : rejected raw = false)
        by (unfold rejected, skipped; now rewrite Hskip).
      rewrite Ha, Hr. apply IH.
    + destruct (contains tab (strip raw)) eqn:Htab; cbn [negb].
      * assert (Ha : accepted raw = true)
          by (unfold accepted, skipped; now rewrite Hskip, Htab).
        assert (Hr : rejected raw = false)
          by (unfold rejected, skipped; now rewrite Hskip, Htab).
        rewrite Ha, Hr. cbn [map].
        rewrite split_once_parts, Htab. cbn [getpart nth_error bind length].
        change (1 <? 2) with true. cbv iota. cbn [getpart nth_error bind].
        pose proof (kept_line_trimmed raw Hskip) as Htrim.
        rewrite (answer_part_visible _ Htrim Htab). cbn [negb].
        rewrite restore_separators_run. cbn [bind].
        rewrite IH. cbn [valid_cards error_cards stderr].
        unfold card_of at 2, restored. now rewrite <- app_assoc.
      * assert (Ha : accepted raw = false)
          by (unfold accepted, skipped; now rewrite Hskip, Htab).
        assert (Hr : rejected raw = true)
          by (unfold rejected, skipped; now rewrite Hskip, Htab).
        rewrite Ha, Hr. cbn [map fst snd].
        rewrite IH. cbn [valid_cards error_cards stderr].
        now rewrite <- !app_assoc.
Qed.

End ConverterFacts.

(** ** The loop of the converter: statements *)

Section ConverterStatements.

Context {T : CharTables}.

(** X7.  The loop over the lines returns on every list of lines.  The
    valid cards are, in the order of the input, one card for each line
    that is not skipped and has a tab once stripped; the error cards are,
    in order, the stripped texts of the lines that are not skipped and
    have no tab; one message about a missing tab is printed for each of
    these, with its line number counted from 1. *)
Theorem read_cards_pass (lines : list str) :
  read_cards 1 lines no_cards
  = Done {| valid_cards := map card_of (filter accepted lines);
            error_cards := map strip (filter rejected lines);
            stderr :=
              map (fun p => NoTabSeparator (fst p) (strip (snd p)))
                (filter (fun p => rejected (snd p)) (enumerate 1 lines)) |}.
Proof.
  rewrite read_cards_run. reflexivity.
Qed.

Lemma line_kinds (lines : list str) :
  length (filter accepted lines) + length (filter rejected lines)
  + length (filter skipped lines) = length lines.
Proof.
  induction lines as [|raw lines IH]; [reflexivity|].
  cbn [filter]. unfold accepted at 1, rejected at 1.
  destruct (skipped raw); [cbn [negb andb length]; lia|].
  destruct (contains tab (strip raw)); cbn [negb andb length]; lia.
Qed.

(** X8.  Every line is counted once: the valid cards, the error cards and
    the skipped lines (blank, starting with [#], or the sentinel, once
    stripped) add up to the lines read. *)
Theorem read_cards_counts_every_line (lines : list str) :
  exists cards,
    read_cards 1 lines no_cards = Done cards
    /\ length (valid_cards cards) + length (error_cards cards)
       + length (filter skipped lines) = length lines.
Proof.
  eexists. split; [apply read_cards_run|].
  cbn [valid_cards error_cards no_cards app].
  rewrite !length_map. apply line_kinds.
Qed.

Lemma accepted_card (raw : str) :
  accepted raw = true ->
  exists question answer,
    card_of raw = [question; answer; of_string "TRUE"]
    /\ trimmed question /\ contains tab question = false
    /\ trimmed answer.
Proof.
  unfold accepted, skipped. intros H.
  apply andb_true_iff in H as [Hskip Htab].
  apply negb_true_iff in Hskip.
  pose proof (kept_line_trimmed raw Hskip) as Htrim.
  eexists. eexists. split; [reflexivity|]. repeat split.
  - apply strip_trimmed.
    pose proof (question_part_visible _ Htrim) as H.
    now destruct (strip (before_first tab (strip raw))).
  - apply strip_free, before_first_free.
  - pose proof (answer_part_visible _ Htrim Htab) as H.
    destruct (join_sentences_trimmed
                (segment (sub_newlines false
                            (strip (after_first tab (strip raw))))) [nl])
      as [E | Ht]; [|exact Ht].
    apply join_sentences_nil in E.
    rewrite visible_normalised, visible_strip in E.
    apply (proj2 (strip_nil_visible _)) in E.
    rewrite E in H. discriminate H.
Qed.

(** X9.  Every valid card the loop collects has three entries: a
    question that is not empty, has no tab and neither starts nor ends
    with whitespace, an answer that is not empty and neither starts nor
    ends with whitespace, and the text [TRUE]. *)
Theorem valid_cards_well_formed (lines : list str) :
  exists cards,
    read_cards 1 lines no_cards = Done cards
    /\ Forall
         (fun card =>
            exists question answer,
              card = [question; answer; of_string "TRUE"]
              /\ trimmed question /\ contains tab question = false
              /\ trimmed answer)
         (valid_cards cards).
Proof.
  eexists. split; [apply read_cards_run|].
  cbn [valid_cards no_cards app].
  apply Forall_forall. intros card Hcard.
  apply in_map_iff in Hcard as (raw & <- & Hraw).
  apply filter_In in Hraw as [_ Hraw].
  now apply accepted_card.
Qed.

(** X10.  The branch for a missing answer is never taken: the line was
    stripped before the tab was looked for, so the text after the first
    tab ends with a visible character.  The loop prints no message about
    a missing answer, and every error card is the whole stripped text of
    an input line, without a tab: a line whose answer is blank is
    reported as a line without tab. *)
Theorem answer_missing_never_reported (lines : list str) :
  exists cards,
    read_cards 1 lines no_cards = Done cards
    /\ (forall n question, ~ In (AnswerMissing n question) (stderr cards))
    /\ Forall
         (fun text =>
            exists raw, In raw lines /\ text = strip raw
                        /\ trimmed (strip raw)
                        /\ contains tab (strip raw) = false)
         (error_cards cards).
Proof.
  eexists. split; [apply read_cards_run|].
  cbn [stderr error_cards no_cards app]. split.
  - intros n question H. apply in_map_iff in H as (p & Hp & _).
    discriminate Hp.
  - apply Forall_forall. intros text Htext.
    apply in_map_iff in Htext as (raw & <- & Hraw).
    apply filter_In in Hraw as [Hin Hraw].
    unfold rejected, skipped in Hraw.
    apply andb_true_iff in Hraw as [Hskip Htab].
    apply negb_true_iff in Hskip. apply negb_true_iff in Htab.
    exists raw. repeat split; [exact Hin | | exact Htab].
    now apply kept_line_trimmed.
Qed.

Lemma enumerate_filter_snd (keep : str -> bool) (lines : list str) :
  forall start,
    map snd (filter (fun p => keep (snd p)) (enumerate start lines))
    = filter keep lines.
Proof.
  induction lines as [|raw lines IH]; intros start; [reflexivity|].
  rewrite enumerate_cons. cbn [filter snd].
  destruct (keep raw); cbn [map snd]; now rewrite IH.
Qed.

Lemma enumerate_in (lines : list str) :
  forall start n raw,
    In (n, raw) (enumerate start lines) ->
    start <= n < start + length lines
    /\ nth_error lines (n - start) = Some raw.
Proof.
  induction lines as [|line lines IH]; intros start n raw H; [destruct H|].
  rewrite enumerate_cons in H. destruct H as [H | H].
  - injection H as <- <-. rewrite Nat.sub_diag. simpl. split; [lia | reflexivity].
  - apply IH in H as [Hn Hraw]. simpl length. split; [lia|].
    replace (n - start) with (S (n - S start)) by lia. exact Hraw.
Qed.

(** X11.  The messages the loop prints and the error cards it collects
    list the same texts in the same order, and each message shows the
    number, counted from 1, of the line its text comes from. *)
Theorem messages_match_error_cards (lines : list str) :
  exists cards,
    read_cards 1 lines no_cards = Done cards
    /\ map shown_text (stderr cards) = error_cards cards
    /\ Forall
         (fun d =>
            1 <= shown_number d <= length lines
            /\ exists raw,
                 nth_error lines (shown_number d - 1) = Some raw
                 /\ shown_text d = strip raw)
         (stderr cards).
Proof.
  eexists. split; [apply read_cards_run|].
  cbn [stderr error_cards no_cards app]. split.
  - rewrite <- (enumerate_filter_snd rejected lines 1), !map_map.
    reflexivity.
  - apply Forall_forall. intros d Hd.
    apply in_map_iff in Hd as ([n raw] & <- & Hp).
    apply filter_In in Hp as [Hp _].
    apply enumerate_in in Hp as [Hn Hraw].
    cbn [shown_number shown_text fst snd]. split; [lia|].
    exists raw. now split.
Qed.

Lemma passes_agree (lines lines' : list str) :
  map strip lines = map strip lines' ->
  map card_of (filter accepted lines) = map card_of (filter accepted lines')
  /\ map strip (filter rejected lines) = map strip (filter rejected lines')
  /\ forall start,
       map (fun p => NoTabSeparator (fst p) (strip (snd p)))
         (filter (fun p => rejected (snd p)) (enumerate start lines))
       = map (fun p => NoTabSeparator (fst p) (strip (snd p)))
           (filter (fun p => rejected (snd p)) (enumerate start lines')).
Proof.
  revert lines'.
  induction lines as [|raw lines IH]; intros [|raw' lines'] H;
    try discriminate H; [now repeat split|].
  cbn [map] in H. injection H as Hraw H.
  destruct (IH lines' H) as (Hvalid & Herrors & Hmessages).
  assert (Ha : accepted raw = accepted raw')
    by (unfold accepted, skipped; now rewrite Hraw).
  assert (Hr : rejected raw = rejected raw')
    by (unfold rejected, skipped; now rewrite Hraw).
  assert (Hc : card_of raw = card_of raw')
    by (unfold card_of; now rewrite Hraw).
  split; [|split].
  - cbn [filter]. rewrite Ha. destruct (accepted raw'); cbn [map];
      now rewrite ?Hc, Hvalid.
  - cbn [filter]. rewrite Hr. destruct (rejected raw'); cbn [map];
      now rewrite ?Hraw, Herrors.
  - intros start. rewrite !enumerate_cons. cbn [filter snd]. rewrite Hr.
    destruct (rejected raw'); cbn [map fst snd];
      now rewrite ?Hraw, Hmessages.
Qed.

(** X12.  The converter sees a line only through its stripped text: two
    inputs whose lines agree once stripped give the same run, with the
    same messages, counts and sheets, or the same exception.  Whitespace
    around a line, a tab at its end included, never changes the result. *)
Theorem convert_depends_on_stripped_lines (lines lines' : list str) :
  map strip lines = map strip lines' ->
  convert_anki_to_studysmarter lines = convert_anki_to_studysmarter lines'.
Proof.
  intros H. destruct (passes_agree lines lines' H) as (Hv & He & Hm).
  unfold convert_anki_to_studysmarter. rewrite !read_cards_run.
  now rewrite Hv, He, Hm.
Qed.

(** X13.  A skipped line leaves no trace but its number: without it the
    loop collects the same valid cards and the same error cards, and its
    messages show the same texts. *)
Theorem skipped_line_leaves_cards (before after : list str) (raw : str) :
  skipped raw = true ->
  exists cards cards',
    read_cards 1 (before ++ raw :: after) no_cards = Done cards
    /\ read_cards 1 (before ++ after) no_cards = Done cards'
    /\ valid_cards cards = valid_cards cards'
    /\ error_cards cards = error_cards cards'
    /\ map shown_text (stderr cards) = map shown_text (stderr cards').
Proof.
  intros Hskip.
  assert (Ha : filter accepted (before ++ raw :: after)
               = filter accepted (before ++ after))
    by (rewrite !filter_app; cbn [filter]; unfold accepted at 2;
        now rewrite Hskip).
  assert (Hr : filter rejected (before ++ raw :: after)
               = filter rejected (before ++ after))
    by (rewrite !filter_app; cbn [filter]; unfold rejected at 2;
        now rewrite Hskip).
  eexists. eexists.
  split; [apply read_cards_run|]. split; [apply read_cards_run|].
  cbn [valid_cards error_cards stderr no_cards app].
  rewrite Ha, Hr. repeat split.
  rewrite !map_map. cbn [shown_text].
  rewrite <- !(map_map snd strip), !enumerate_filter_snd. now rewrite Hr.
Qed.

End ConverterStatements.

(** ** The further statements at concrete inputs *)

Example segment_identity_on_uppercase_witness :
  @heuristic_insert_linebreaks ascii_tables (of_string "NATO")
  = Done (of_string "NATO").
Proof.
  apply (@segment_identity_on_uppercase ascii_tables). reflexivity.
Defined.

Example segment_splits_at_forbidden_witness :
  @heuristic_insert_linebreaks ascii_tables
    (of_string "wordXy" ++ space :: of_string "endAb")
  = Done (@segment ascii_tables (of_string "wordXy")
          ++ space :: @segment ascii_tables (of_string "endAb")).
Proof.
  apply (@segment_splits_at_forbidden ascii_tables). reflexivity.
Defined.

Example segment_breaks_before_upper_witness :
  exists out,
    @heuristic_insert_linebreaks ascii_tables (of_string "wordXy") = Done out
    /\ forall k, nth_error out k = Some nl
                 -> @before_upper ascii_tables out k.
Proof.
  apply (@segment_breaks_before_upper ascii_tables). reflexivity.
Defined.

Example convert_depends_on_stripped_lines_witness :
  @convert_anki_to_studysmarter ascii_tables
    [of_string "  Capital?" ++ tab :: of_string "Paris  "; [tab]]
  = @convert_anki_to_studysmarter ascii_tables
      [of_string "Capital?" ++ tab :: of_string "Paris"; []].
Proof.
  apply (@convert_depends_on_stripped_lines ascii_tables). reflexivity.
Defined.

Example skipped_line_leaves_cards_witness :
  exists cards cards',
    @read_cards ascii_tables 1
      ([of_string "Capital?" ++ tab :: of_string "Paris"]
         ++ of_string "# a comment" :: [of_string "no answer"])
      no_cards
    = Done cards
    /\ @read_cards ascii_tables 1
         ([of_string "Capital?" ++ tab :: of_string "Paris"]
            ++ [of_string "no answer"])
         no_cards
       = Done cards'
    /\ valid_cards cards = valid_cards cards'
    /\ error_cards cards = error_cards cards'
    /\ map shown_text (stderr cards) = map shown_text (stderr cards').
Proof.
  apply (@skipped_line_leaves_cards ascii_tables). reflexivity.
Defined.

(** ** Plain text and blocks of line breaks *)

Lemma sub_newlines_id (text : str) :
  no_breaks text = true ->
  forall in_block, sub_newlines in_block text = text.
Proof.
  induction text as [|c rest IH]; intros H in_block; [reflexivity|].
  unfold no_breaks in *. simpl in H. apply andb_true_iff in H as [Hc H].
  apply negb_true_iff in Hc. cbn [sub_newlines]. now rewrite Hc, IH.
Qed.

Lemma sub_newlines_in_block (n : nat) (text : str) :
  sub_newlines true (repeat nl n ++ text) = sub_newlines true text.
Proof.
  induction n as [|n IH]; [reflexivity|].
  cbn [repeat app sub_newlines]. now rewrite N.eqb_refl, IH.
Qed.

Lemma sub_newlines_block (a b : str) (n : nat) :
  forall in_block,
    sub_newlines in_block (a ++ repeat nl (S n) ++ b)
    = sub_newlines in_block (a ++ nl :: b).
Proof.
  induction a as [|c a IH]; intros in_block.
  - cbn [repeat app sub_newlines]. rewrite N.eqb_refl.
    now rewrite sub_newlines_in_block.
  - change ((c :: a) ++ repeat nl (S n) ++ b)
      with (c :: a ++ repeat nl (S n) ++ b).
    change ((c :: a) ++ nl :: b) with (c :: a ++ nl :: b).
    cbn [sub_newlines]. now rewrite !IH.
Qed.

Section PlainText.

Context {T : CharTables}.

Lemma split_loop_no_terminal (text : str) :
  forall prev piece,
    after_terminal prev = false ->
    forallb (fun c => negb (terminal c)) text = true ->
    split_loop false prev piece text = [piece ++ text].
Proof.
  induction text as [|c rest IH]; intros prev piece Hprev H.
  - simpl. now rewrite app_nil_r.
  - simpl in H. apply andb_true_iff in H as [Hc H].
    apply negb_true_iff in Hc. cbn [split_loop].
    rewrite Hprev, andb_false_r, IH by assumption.
    now rewrite <- app_assoc.
Qed.

(** X14.  A text without uppercase letters, line breaks and terminal marks
    is returned stripped, whatever the separator. *)
Theorem restore_separators_plain_text (text separator : str) :
  forallb (fun c => negb (isupper c)) text = true ->
  no_breaks text = true ->
  forallb (fun c => negb (terminal c)) text = true ->
  restore_separators text separator = Done (strip text).
Proof.
  intros Hupper Hbreaks Hterminal. rewrite restore_separators_run.
  rewrite (sub_newlines_id text Hbreaks).
  unfold segment, segment_from. rewrite (scan_no_upper text _ _ Hupper).
  unfold join_sentences, re_split.
  rewrite (split_loop_no_terminal text None [] eq_refl Hterminal).
  cbn [app filter].
  destruct (strip text) as [|c r] eqn:Hs; cbn [nonempty map join];
    now rewrite ?Hs.
Qed.

(** X15.  A block of line breaks counts as one line break, however long it
    is: the result is the same. *)
Theorem restore_separators_break_block (a b separator : str) (n : nat) :
  restore_separators (a ++ repeat nl (S n) ++ b) separator
  = restore_separators (a ++ nl :: b) separator.
Proof.
  unfold restore_separators. now rewrite sub_newlines_block.
Qed.

End PlainText.

Example restore_separators_plain_text_witness :
  @restore_separators ascii_tables (of_string "  plain answer, no capitals ")
    (of_string "; ")
  = Done (of_string "plain answer, no capitals").
Proof.
  apply (@restore_separators_plain_text ascii_tables); reflexivity.
Defined.
